(** * MonthlyWrap: the React front end, embedded and verified

    Two revisions of the front end are covered:
    - [AppJs]  : frontend/src/App.js (no login, a [useEffect] on [limit]);
    - [Routed] : the routed revision with [CallbackHandler], the session
                 probe and the login call-to-action.
    Both share the body of [fetchWrapData], which lives in [Wrap]. *)

From Stdlib Require Import ZArith Lia Ascii String.
From stdpp Require Import base list strings pretty.

Local Open Scope string_scope.
Local Open Scope list_scope.

(** ** JavaScript values the component touches *)

Module Js.

(** A JS number as the component can hold one in [limit]: the result of
    [parseInt(_, 10)] is an integer or [NaN]. *)
Inductive number :=
| NaN
| Int (z : Z).

#[global] Instance number_eq_dec : EqDecision number.
Proof. solve_decision. Defined.

Definition is_digit (c : ascii) : bool :=
  (48 <=? nat_of_ascii c)%nat && (nat_of_ascii c <=? 57)%nat.

Definition digit_value (c : ascii) : Z := Z.of_nat (nat_of_ascii c) - 48.

(** ASCII part of ECMAScript's StrWhiteSpaceChar: TAB, LF, VT, FF, CR, SP. *)
Definition is_space (c : ascii) : bool :=
  let n := nat_of_ascii c in
  ((9 <=? n)%nat && (n <=? 13)%nat) || (n =? 32)%nat.

Fixpoint skip_spaces (s : string) : string :=
  match s with
  | String c s' => if is_space c then skip_spaces s' else s
  | EmptyString => s
  end.

(** Longest prefix of decimal digits, read left to right; [None] when the
    prefix is empty. *)
Fixpoint read_digits (s : string) (acc : option Z) : option Z :=
  match s with
  | String c s' =>
      if is_digit c
      then read_digits s' (Some (10 * default 0%Z acc + digit_value c)%Z)
      else acc
  | EmptyString => acc
  end.

(** [parseInt(s, 10)]: leading white space, an optional sign, then the
    digits; [NaN] when no digit follows. *)
Definition parseInt (s : string) : number :=
  match skip_spaces s with
  | String "-" s' =>
      match read_digits s' None with Some z => Int (- z) | None => NaN end
  | String "+" s' =>
      match read_digits s' None with Some z => Int z | None => NaN end
  | s' =>
      match read_digits s' None with Some z => Int z | None => NaN end
  end.

(** Template-literal interpolation of a number. *)
Definition number_to_string (n : number) : string :=
  match n with
  | NaN => "NaN"
  | Int z => pretty z
  end.

(** An [Error] object: only [name] and [message] are observed. *)
Record Error := mkError { name : string; message : string }.

#[global] Instance Error_eq_dec : EqDecision Error.
Proof. solve_decision. Defined.

(** [new Error(msg)] *)
Definition new_Error (msg : string) : Error := mkError "Error" msg.

(** The options object handed to [fetch]. *)
Record Request := mkRequest {
  url : string;
  method : string;        (* "GET" when the options leave it out *)
  credentials : string
}.

#[global] Instance Request_eq_dec : EqDecision Request.
Proof. solve_decision. Defined.

(** [fetch(url, { credentials: 'include' })] *)
Definition fetch_with_credentials (u : string) : Request :=
  mkRequest u "GET" "include".

(** What [response.json()] does with the body. *)
Inductive Body (A : Type) :=
| Json (a : A)
| NotJson (e : Error).
Arguments Json {A} a.
Arguments NotJson {A} e.

(** How a [fetch] ends: the promise rejects (network failure) or resolves
    with a response carrying a status and a body. *)
Inductive FetchResult (A : Type) :=
| NetworkFailure (e : Error)
| Response (status : nat) (body : Body A).
Arguments NetworkFailure {A} e.
Arguments Response {A} status body.

(** [response.ok]: the status is in the range 200-299. *)
Definition ok (status : nat) : bool :=
  (200 <=? status)%nat && (status <=? 299)%nat.

(** A settled promise. *)
Inductive Settled (A : Type) :=
| Fulfilled (a : A)
| Rejected (e : Error).
Arguments Fulfilled {A} a.
Arguments Rejected {A} e.

(** Truthiness of a string that may be missing: [undefined], [null] and
    the empty string are falsy. *)
Definition truthy (a : option string) : bool :=
  match a with
  | Some s => negb (bool_decide (s = ""))
  | None => false
  end.

(** [a || b] *)
Definition or_else (a : option string) (b : string) : string :=
  match a with
  | Some s => if truthy a then s else b
  | None => b
  end.

(** [s] without its prefix [p]; [None] when [p] is not a prefix of [s]. *)
Fixpoint strip_prefix (p s : string) : option string :=
  match p, s with
  | EmptyString, _ => Some s
  | String a p', String b s' =>
      if decide (a = b) then strip_prefix p' s' else None
  | String _ _, EmptyString => None
  end.

(** The parameter list a [URLSearchParams] object holds, in order. *)
Definition URLSearchParams := list (string * string).

(** [params.get(key)]: the value of the first pair named [key]. *)
Fixpoint get (key : string) (params : URLSearchParams) : option string :=
  match params with
  | [] => None
  | (k, v) :: rest => if decide (k = key) then Some v else get key rest
  end.

End Js.

(** ** Data received from the backend

    The bodies of 2xx answers are taken at the shapes the backend gives
    them: an object for [/user-info], an array of tracks for
    [/top-tracks].  A body that does not parse is [Js.NotJson]. *)

Record Track := mkTrack {
  name : string;
  artists : list string;
  album_image : string
}.

Record UserProfile := mkUserProfile {
  display_name : option string     (* [None]: the field is absent or null *)
}.

#[global] Instance Track_eq_dec : EqDecision Track.
Proof. solve_decision. Defined.

#[global] Instance UserProfile_eq_dec : EqDecision UserProfile.
Proof. solve_decision. Defined.

Definition backend : string := "https://monthlywrap.onrender.com".

(** ** Effects

    Every handler of the component is a sequence of calls to state setters,
    [fetch], [setTimeout], [console] and [navigate].  A handler is embedded
    as the list of those calls in program order; the event loop applies them
    to the hooks and appends them to a log. *)

Inductive Action :=
| SetDisplayName (v : string)
| SetTracks (v : list Track)
| SetLimit (v : Js.number)
| SetError (e : Js.Error)
| SetIsReloading (b : bool)
| SetIsLoggedIn (b : bool)
| SetTimeout (delay : nat)
| Fetch (r : Js.Request)
| ConsoleLog (label : string) (data : string)
| ConsoleError (label : string) (e : Js.Error)
| Navigate (to : string).

#[global] Instance Action_eq_dec : EqDecision Action.
Proof. solve_decision. Defined.

(** A log entry: when the call happened and which invocation of
    [fetchWrapData] made it ([None]: some other handler). *)
Record Entry := mkEntry {
  time : nat;
  who : option nat;
  act : Action
}.

#[global] Instance Entry_eq_dec : EqDecision Entry.
Proof. solve_decision. Defined.

(** The [useState] hooks that [fetchWrapData] and the render function read
    and write.  Both revisions of [App] provide them. *)
Module Hook.
Class Hooks (S : Type) := {
  displayName : S -> string;
  tracks : S -> list Track;
  limit : S -> Js.number;
  error : S -> option Js.Error;
  isReloading : S -> bool;
  (** what a call does to the hooks *)
  apply : Action -> S -> S;
  displayName_apply a s :
    displayName (apply a s) =
      match a with SetDisplayName v => v | _ => displayName s end;
  tracks_apply a s :
    tracks (apply a s) = match a with SetTracks v => v | _ => tracks s end;
  limit_apply a s :
    limit (apply a s) = match a with SetLimit v => v | _ => limit s end;
  error_apply a s :
    error (apply a s) = match a with SetError e => Some e | _ => error s end;
  isReloading_apply a s :
    isReloading (apply a s) =
      match a with SetIsReloading b => b | _ => isReloading s end
}.
End Hook.
Import Hook.

(** ** The event loop around [fetchWrapData] *)

Module Wrap.

(** Where one invocation of [fetchWrapData] stands. *)
Inductive Cycle :=
| FadingOut (due : nat) (limit : Js.number)
    (* the 300 ms timer is pending *)
| Fetching (u : option UserProfile) (t : option (list Track))
    (* [Promise.all] is pending; [Some]: that request has fulfilled *)
| FadingIn (due : nat) (tracksData : list Track)
    (* the 100 ms timer is pending *)
| Committed
    (* the 100 ms callback has run *)
| Caught (u_in_flight t_in_flight : bool).
    (* the [.catch] handler has run; a sibling request may still be out *)

#[global] Instance Cycle_eq_dec : EqDecision Cycle.
Proof. solve_decision. Defined.

Inductive Event :=
| Call (limit : Js.number)
    (* [fetchWrapData(limit)] is invoked *)
| Timer (k : nat)
    (* the pending timer of invocation [k] fires *)
| UserInfo (k : nat) (r : Js.FetchResult UserProfile)
    (* the user-info request of invocation [k] ends with [r] *)
| TopTracks (k : nat) (r : Js.FetchResult (list Track))
    (* the top-tracks request of invocation [k] ends with [r] *)
| Outside (acts : list Action).
    (* a handler other than [fetchWrapData] runs *)

Section Loop.
Context {S : Type} `{Hooks S}.

(** The static part of the top-tracks template literal, up to and
    including [limit=]; the two revisions differ in it. *)
Variable top_tracks_prefix : string.

Record Machine := mkMachine {
  ui : S;
  cycles : list Cycle;
  log : list Entry;
  now : nat
}.

(** Run a handler body at time [t] on behalf of [w]. *)
Definition perform (w : option nat) (t : nat) (acts : list Action)
    (cs : list Cycle) (m : Machine) : Machine :=
  {| ui := foldl (fun s a => apply a s) (ui m) acts;
     cycles := cs;
     log := log m ++ map (mkEntry t w) acts;
     now := t |}.

Definition user_info_request : Js.Request :=
  Js.fetch_with_credentials (backend +:+ "/user-info").

Definition top_tracks_request (l : Js.number) : Js.Request :=
  Js.fetch_with_credentials (top_tracks_prefix +:+ Js.number_to_string l).

(** The [.then(response => ...)] attached to each of the two fetches. 
    [label] is the static part of the message of the thrown error. *)
Definition check_response {A} (label : string) (r : Js.FetchResult A)
    : Js.Settled A :=
  match r with
  | Js.NetworkFailure e => Js.Rejected e
  | Js.Response status body =>
      if Js.ok status
      then match body with
           | Js.Json a => Js.Fulfilled a
           | Js.NotJson e => Js.Rejected e
           end
      else Js.Rejected (Js.new_Error (label +:+ pretty status))
  end.

Definition user_info_then := @check_response UserProfile "User info HTTP error: ".
Definition top_tracks_then := @check_response (list Track) "Top tracks HTTP error: ".

(** [fetchWrapData(limit)] up to its [setTimeout(..., 300)]. *)
Definition fetchWrapData (l : Js.number) (t : nat) (m : Machine) : Machine :=
  perform (Some (length (cycles m))) t
    [SetIsReloading true; SetTimeout 300]
    (cycles m ++ [FadingOut (t + 300) l]) m.

(** The 300 ms callback: both requests go out. *)
Definition start_requests (k : nat) (l : Js.number) (t : nat) (m : Machine)
    : Machine :=
  perform (Some k) t
    [Fetch user_info_request; Fetch (top_tracks_request l)]
    (<[k := Fetching None None]> (cycles m)) m.

(** [.then(([userData, tracksData]) => ...)] up to its
    [setTimeout(..., 100)]. *)
Definition all_fulfilled (k : nat) (userData : UserProfile)
    (tracksData : list Track) (t : nat) (m : Machine) : Machine :=
  perform (Some k) t
    [SetDisplayName (Js.or_else (display_name userData) "User");
     SetTimeout 100]
    (<[k := FadingIn (t + 100) tracksData]> (cycles m)) m.

(** The 100 ms callback. *)
Definition commit (k : nat) (tracksData : list Track) (t : nat)
    (m : Machine) : Machine :=
  perform (Some k) t
    [SetTracks tracksData; SetIsReloading false]
    (<[k := Committed]> (cycles m)) m.

(** [.catch(err => ...)]; [u], [t_]: is the sibling still in flight. *)
Definition catch (k : nat) (err : Js.Error) (u t_ : bool) (t : nat)
    (m : Machine) : Machine :=
  perform (Some k) t
    [ConsoleError "Error fetching data:" err; SetError err;
     SetIsReloading false]
    (<[k := Caught u t_]> (cycles m)) m.

(** Nothing observable happens; only the bookkeeping changes. *)
Definition silent (k : nat) (c : Cycle) (t : nat) (m : Machine) : Machine :=
  perform (Some k) t [] (<[k := c]> (cycles m)) m.

(** One turn of the event loop at time [t].  [None]: the event cannot
    happen in [m] (time would run backwards, the timer is not due, the
    request is not in flight). *)
Definition step (t : nat) (e : Event) (m : Machine) : option Machine :=
  if decide (now m <= t)%nat then
    match e with
    | Call l => Some (fetchWrapData l t m)
    | Timer k =>
        match cycles m !! k with
        | Some (FadingOut due l) =>
            if decide (due <= t)%nat then Some (start_requests k l t m)
            else None
        | Some (FadingIn due d) =>
            if decide (due <= t)%nat then Some (commit k d t m) else None
        | _ => None
        end
    | UserInfo k r =>
        match cycles m !! k with
        | Some (Fetching None tr) =>
            match user_info_then r, tr with
            | Js.Rejected err, None => Some (catch k err false true t m)
            | Js.Rejected err, Some _ => Some (catch k err false false t m)
            | Js.Fulfilled u, Some d => Some (all_fulfilled k u d t m)
            | Js.Fulfilled u, None =>
                Some (silent k (Fetching (Some u) None) t m)
            end
        | Some (Caught true tf) => Some (silent k (Caught false tf) t m)
        | _ => None
        end
    | TopTracks k r =>
        match cycles m !! k with
        | Some (Fetching ur None) =>
            match top_tracks_then r, ur with
            | Js.Rejected err, None => Some (catch k err true false t m)
            | Js.Rejected err, Some _ => Some (catch k err false false t m)
            | Js.Fulfilled d, Some u => Some (all_fulfilled k u d t m)
            | Js.Fulfilled d, None =>
                Some (silent k (Fetching None (Some d)) t m)
            end
        | Some (Caught uf true) => Some (silent k (Caught uf false) t m)
        | _ => None
        end
    | Outside acts => Some (perform None t acts (cycles m) m)
    end
  else None.

(** A timed trace, oldest event first. *)
Fixpoint run (tr : list (nat * Event)) (m : Machine) : option Machine :=
  match tr with
  | [] => Some m
  | (t, e) :: tr' =>
      match step t e m with
      | Some m' => run tr' m'
      | None => None
      end
  end.

End Loop.

End Wrap.

(** ** Rendered output *)

Module Dom.

(** The value of a JSX attribute. *)
Inductive Attr :=
| Str (s : string)
| Num (n : Js.number)
| Handler (f : string).

#[global] Instance Attr_eq_dec : EqDecision Attr.
Proof. solve_decision. Defined.

#[local] Set Warnings "-register-all".

Inductive Node :=
| Text (s : string)
| Elem (tag : string) (attrs : list (string * Attr)) (children : list Node).

(** The node and everything below it, in document order. *)
Fixpoint descendants (n : Node) : list Node :=
  n :: match n with
       | Text _ => []
       | Elem _ _ cs => concat (map descendants cs)
       end.

Fixpoint assoc (a : string) (attrs : list (string * Attr)) : option Attr :=
  match attrs with
  | [] => None
  | (k, v) :: rest => if decide (k = a) then Some v else assoc a rest
  end.

Definition attr (a : string) (n : Node) : option Attr :=
  match n with
  | Text _ => None
  | Elem _ attrs _ => assoc a attrs
  end.

Definition tag_of (n : Node) : option string :=
  match n with
  | Text _ => None
  | Elem tg _ _ => Some tg
  end.

Definition children_of (n : Node) : list Node :=
  match n with
  | Text _ => []
  | Elem _ _ cs => cs
  end.

(** The space-separated tokens of a [className]. *)
Fixpoint tokens_go (s : string) (cur : string) : list string :=
  match s with
  | EmptyString => if decide (cur = "") then [] else [cur]
  | String c s' =>
      if decide (c = " "%char)
      then (if decide (cur = "") then [] else [cur]) ++ tokens_go s' ""
      else tokens_go s' (cur +:+ String c EmptyString)
  end.

Definition class_list (n : Node) : list string :=
  match attr "className" n with
  | Some (Str s) => tokens_go s ""
  | _ => []
  end.

Definition is_tag (tg : string) (n : Node) : bool :=
  bool_decide (tag_of n = Some tg).

Definition has_class (c : string) (n : Node) : bool :=
  bool_decide (c ∈ class_list n).

(** All elements below [n] (or [n] itself) carrying the class [c]. *)
Definition by_class (c : string) (n : Node) : list Node :=
  filter (fun d => has_class c d = true) (descendants n).

Definition by_tag (tg : string) (n : Node) : list Node :=
  filter (fun d => is_tag tg d = true) (descendants n).

Definition text_of (n : Node) : option string :=
  match n with
  | Text s => Some s
  | Elem _ _ _ => None
  end.

(** The text nodes below [n], in document order. *)
Definition texts (n : Node) : list string := omap text_of (descendants n).

(** Is the text [s] shown somewhere below [n]? *)
Definition shows (s : string) (n : Node) : bool :=
  bool_decide (s ∈ texts n).

End Dom.

(** ** The JSX shared by the two revisions *)

Module View.
Import Dom.

Section View.
Context {S : Type} `{Hooks S}.

Definition greeting (s : S) : Node :=
  Elem "h1" []
    [Text "Hello "; Text (displayName s);
     Text ", here is your Monthly Wrap!"].

(** [<option key={i + 1} value={i + 1}>{i + 1}</option>] *)
Definition option_ (i : nat) : Node :=
  let v := Js.Int (Z.of_nat i + 1) in
  Elem "option" [("key", Num v); ("value", Num v)]
    [Text (Js.number_to_string v)].

(** [[...Array(10).keys()].map(i => ...)] *)
Definition options : list Node := map option_ (seq 0 10).

(** [<select id="limitSelect" value={limit} ...>] *)
Definition limitSelect (s : S) : Node :=
  Elem "select"
    [("id", Str "limitSelect"); ("value", Num (limit s));
     ("onChange", Handler "handleLimitChange");
     ("className", Str "dropdown-select")]
    options.

Definition dropdown (s : S) : Node :=
  Elem "div" [("className", Str "dropdown-container")]
    [Elem "label"
       [("htmlFor", Str "limitSelect"); ("className", Str "dropdown-label")]
       [Elem "p" [] [Text "Select number of tracks:"]];
     limitSelect s].

(** [{error && <p>Error: {error.message}</p>}] *)
Definition error_line (s : S) : list Node :=
  match error s with
  | Some e => [Elem "p" [] [Text "Error: "; Text (Js.message e)]]
  | None => []
  end.

Definition card (index : nat) (track : Track) : Node :=
  Elem "div" [("key", Num (Js.Int (Z.of_nat index))); ("className", Str "card")]
    [Elem "img" [("src", Str (album_image track)); ("alt", Str (name track))] [];
     Elem "h3" [] [Text (name track)];
     Elem "p" [] [Text (String.concat ", " (artists track))]].

(** [{tracks.length === 0 && !isReloading && <p>No tracks found.</p>}] *)
Definition no_tracks (s : S) : list Node :=
  if bool_decide (length (tracks s) = 0%nat) && negb (isReloading s)
  then [Elem "p" [] [Text "No tracks found."]]
  else [].

Definition card_container (s : S) : Node :=
  Elem "div"
    [("className",
      Str ("card-container " +:+
           (if isReloading s then "cards-reloading" else "")))]
    (no_tracks s ++ imap card (tracks s)).

(** Greeting, dropdown, error line and cards, in that order. *)
Definition wrap (s : S) : list Node :=
  [greeting s; dropdown s] ++ error_line s ++ [card_container s].

End View.

End View.

(** ** frontend/src/App.js *)

Module AppJs.

Record State := mkState {
  displayName : string;
  tracks : list Track;
  limit : Js.number;
  error : option Js.Error;
  isReloading : bool
}.

(** The [useState] initial values. *)
Definition initial : State := mkState "" [] (Js.Int 5) None false.

Definition apply (a : Action) (s : State) : State :=
  match a with
  | SetDisplayName v => mkState v (tracks s) (limit s) (error s) (isReloading s)
  | SetTracks v => mkState (displayName s) v (limit s) (error s) (isReloading s)
  | SetLimit v => mkState (displayName s) (tracks s) v (error s) (isReloading s)
  | SetError e => mkState (displayName s) (tracks s) (limit s) (Some e) (isReloading s)
  | SetIsReloading b => mkState (displayName s) (tracks s) (limit s) (error s) b
  | _ => s
  end.

#[global, refine] Instance hooks : Hooks State :=
  {| Hook.displayName := displayName; Hook.tracks := tracks;
     Hook.limit := limit; Hook.error := error;
     Hook.isReloading := isReloading; Hook.apply := apply |}.
Proof. all: intros [] ?; reflexivity. Defined.

(** The template literal of the top-tracks request, up to [${limit}]. *)
Definition top_tracks_prefix : string := backend +:+ "//top-tracks?limit=".

Record Config := mkConfig {
  machine : Wrap.Machine (S := State);
  mounted : bool
}.

Definition start : Config :=
  mkConfig (Wrap.mkMachine initial [] [] 0) false.

Inductive Event :=
| Mount
| Change (value : string)       (* [onChange] with [event.target.value] *)
| Timer (k : nat)
| UserInfo (k : nat) (r : Js.FetchResult UserProfile)
| TopTracks (k : nat) (r : Js.FetchResult (list Track)).

(** [useEffect(() => { fetchWrapData(limit); }, [limit])] *)
Definition effect (t : nat) (m : Wrap.Machine) : option Wrap.Machine :=
  Wrap.step top_tracks_prefix t (Wrap.Call (limit (Wrap.ui m))) m.

(** [handleLimitChange]; the effect runs when [limit] is not the value of
    the previous render. *)
Definition handleLimitChange (value : string) (t : nat) (m : Wrap.Machine)
    : option Wrap.Machine :=
  let newLimit := Js.parseInt value in
  m' ← Wrap.step top_tracks_prefix t (Wrap.Outside [SetLimit newLimit]) m;
  if decide (newLimit = limit (Wrap.ui m)) then Some m' else effect t m'.

Definition step (t : nat) (e : Event) (c : Config) : option Config :=
  match e with
  | Mount =>
      if mounted c then None
      else m' ← effect t (machine c); Some (mkConfig m' true)
  | Change value =>
      if mounted c
      then m' ← handleLimitChange value t (machine c); Some (mkConfig m' true)
      else None
  | Timer k =>
      m' ← Wrap.step top_tracks_prefix t (Wrap.Timer k) (machine c);
      Some (mkConfig m' (mounted c))
  | UserInfo k r =>
      m' ← Wrap.step top_tracks_prefix t (Wrap.UserInfo k r) (machine c);
      Some (mkConfig m' (mounted c))
  | TopTracks k r =>
      m' ← Wrap.step top_tracks_prefix t (Wrap.TopTracks k r) (machine c);
      Some (mkConfig m' (mounted c))
  end.

Fixpoint run (tr : list (nat * Event)) (c : Config) : option Config :=
  match tr with
  | [] => Some c
  | (t, e) :: tr' => c' ← step t e c; run tr' c'
  end.

(** What [App] returns. *)
Definition App (s : State) : Dom.Node :=
  Dom.Elem "div" [("className", Dom.Str "container")] (View.wrap s).

End AppJs.

(** ** The routed revision: [CallbackHandler] *)

Module CallbackHandler.

(** Where the effect of [CallbackHandler] stands. *)
Inductive Phase :=
| Unmounted
| Requested        (* the [/callback] request is in flight *)
| Finished.

#[global] Instance Phase_eq_dec : EqDecision Phase.
Proof. solve_decision. Defined.

Record Config := mkConfig {
  phase : Phase;
  log : list Action
}.

Definition start : Config := mkConfig Unmounted [].

Inductive Event :=
| Mount (search : Js.URLSearchParams)
    (* the component mounts; [search] is [window.location.search] parsed *)
| Result (r : Js.FetchResult string).
    (* the [/callback] request ends; a JSON body is kept as text *)

Definition callback_request (code : string) : Js.Request :=
  Js.mkRequest (backend +:+ "/callback?code=" +:+ code) "GET" "include".

(** The body of the [useEffect]. *)
Definition on_mount (search : Js.URLSearchParams) : Phase * list Action :=
  let code := Js.get "code" search in
  if Js.truthy code
  then (Requested, [Fetch (callback_request (default "" code))])
  else (Finished, [Navigate "/"]).

(** [.then(response => response.json()).then(data => ...).catch(error => ...)] *)
Definition on_result (r : Js.FetchResult string) : list Action :=
  match r with
  | Js.Response _ (Js.Json data) =>
      [ConsoleLog "Auth Success:" data; Navigate "/"]
  | Js.Response _ (Js.NotJson e) => [ConsoleError "Auth Error:" e; Navigate "/"]
  | Js.NetworkFailure e => [ConsoleError "Auth Error:" e; Navigate "/"]
  end.

Definition step (e : Event) (c : Config) : option Config :=
  match e, phase c with
  | Mount search, Unmounted =>
      let '(p, acts) := on_mount search in Some (mkConfig p (log c ++ acts))
  | Result r, Requested => Some (mkConfig Finished (log c ++ on_result r))
  | _, _ => None
  end.

Fixpoint run (tr : list Event) (c : Config) : option Config :=
  match tr with
  | [] => Some c
  | e :: tr' => c' ← step e c; run tr' c'
  end.

(** What [CallbackHandler] returns. *)
Definition view : Dom.Node := Dom.Elem "p" [] [Dom.Text "Logging in..."].

End CallbackHandler.

(** ** The routed revision: [App] *)

Module Routed.

Record State := mkState {
  displayName : string;
  tracks : list Track;
  limit : Js.number;
  error : option Js.Error;
  isReloading : bool;
  isLoggedIn : bool
}.

(** The [useState] initial values. *)
Definition initial : State := mkState "" [] (Js.Int 5) None false false.

Definition apply (a : Action) (s : State) : State :=
  match a with
  | SetDisplayName v =>
      mkState v (tracks s) (limit s) (error s) (isReloading s) (isLoggedIn s)
  | SetTracks v =>
      mkState (displayName s) v (limit s) (error s) (isReloading s) (isLoggedIn s)
  | SetLimit v =>
      mkState (displayName s) (tracks s) v (error s) (isReloading s) (isLoggedIn s)
  | SetError e =>
      mkState (displayName s) (tracks s) (limit s) (Some e) (isReloading s) (isLoggedIn s)
  | SetIsReloading b =>
      mkState (displayName s) (tracks s) (limit s) (error s) b (isLoggedIn s)
  | SetIsLoggedIn b =>
      mkState (displayName s) (tracks s) (limit s) (error s) (isReloading s) b
  | _ => s
  end.

#[global, refine] Instance hooks : Hooks State :=
  {| Hook.displayName := displayName; Hook.tracks := tracks;
     Hook.limit := limit; Hook.error := error;
     Hook.isReloading := isReloading; Hook.apply := apply |}.
Proof. all: intros [] ?; reflexivity. Defined.

(** The template literal of the top-tracks request, up to [${limit}]. *)
Definition top_tracks_prefix : string := backend +:+ "/top-tracks?limit=".

(** Where the session probe stands. *)
Inductive Probe :=
| NotSent
| InFlight
| Settled.

#[global] Instance Probe_eq_dec : EqDecision Probe.
Proof. solve_decision. Defined.

Record Config := mkConfig {
  machine : Wrap.Machine (S := State);
  probe : Probe
}.

Definition start : Config :=
  mkConfig (Wrap.mkMachine initial [] [] 0) NotSent.

Inductive Event :=
| Mount
| ProbeResult (r : Js.FetchResult UserProfile)
| Change (value : string)       (* [onChange] with [event.target.value] *)
| Timer (k : nat)
| UserInfo (k : nat) (r : Js.FetchResult UserProfile)
| TopTracks (k : nat) (r : Js.FetchResult (list Track)).

Definition probe_request : Js.Request :=
  Js.fetch_with_credentials (backend +:+ "/user-info").

(** The first [.then] of the probe. *)
Definition probe_then (r : Js.FetchResult UserProfile) : Js.Settled UserProfile :=
  match r with
  | Js.NetworkFailure e => Js.Rejected e
  | Js.Response status body =>
      if Js.ok status
      then match body with
           | Js.Json a => Js.Fulfilled a
           | Js.NotJson e => Js.Rejected e
           end
      else Js.Rejected (Js.new_Error "User not logged in")
  end.

(** The second [.then] and the [.catch] of the probe. *)
Definition probe_settled (r : Js.FetchResult UserProfile) : list Action :=
  match probe_then r with
  | Js.Fulfilled userData =>
      [SetDisplayName (Js.or_else (display_name userData) "User");
       SetIsLoggedIn true]
  | Js.Rejected _ => [SetIsLoggedIn false]
  end.

(** [handleLimitChange] *)
Definition handleLimitChange (value : string) : list Action :=
  let newLimit := Js.parseInt value in [SetLimit newLimit].

Definition step (t : nat) (e : Event) (c : Config) : option Config :=
  match e with
  | Mount =>
      match probe c with
      | NotSent =>
          m' ← Wrap.step top_tracks_prefix t
                 (Wrap.Outside [Fetch probe_request]) (machine c);
          Some (mkConfig m' InFlight)
      | _ => None
      end
  | ProbeResult r =>
      match probe c with
      | InFlight =>
          m' ← Wrap.step top_tracks_prefix t
                 (Wrap.Outside (probe_settled r)) (machine c);
          Some (mkConfig m' Settled)
      | _ => None
      end
  | Change value =>
      match probe c with
      | NotSent => None
      | _ =>
          m' ← Wrap.step top_tracks_prefix t
                 (Wrap.Outside (handleLimitChange value)) (machine c);
          Some (mkConfig m' (probe c))
      end
  | Timer k =>
      m' ← Wrap.step top_tracks_prefix t (Wrap.Timer k) (machine c);
      Some (mkConfig m' (probe c))
  | UserInfo k r =>
      m' ← Wrap.step top_tracks_prefix t (Wrap.UserInfo k r) (machine c);
      Some (mkConfig m' (probe c))
  | TopTracks k r =>
      m' ← Wrap.step top_tracks_prefix t (Wrap.TopTracks k r) (machine c);
      Some (mkConfig m' (probe c))
  end.

Fixpoint run (tr : list (nat * Event)) (c : Config) : option Config :=
  match tr with
  | [] => Some c
  | (t, e) :: tr' => c' ← step t e c; run tr' c'
  end.

(** [<a href=".../login" className="login-button">Login with Spotify</a>] *)
Definition login_button : Dom.Node :=
  Dom.Elem "a"
    [("href", Dom.Str (backend +:+ "/login"));
     ("className", Dom.Str "login-button")]
    [Dom.Text "Login with Spotify"].

Definition login_container : Dom.Node :=
  Dom.Elem "div" [("className", Dom.Str "login-container")]
    [Dom.Elem "h1" [] [Dom.Text "Welcome to Monthly Wrap"];
     Dom.Elem "p" [] [Dom.Text "See your top Spotify tracks for the past 4 weeks."];
     login_button].

(** The element of the route [/]. *)
Definition home (s : State) : Dom.Node :=
  Dom.Elem "div" [("className", Dom.Str "container")]
    (if negb (isLoggedIn s) then [login_container] else View.wrap s).

(** The route table [App] returns: path and element, in order. *)
Definition App (s : State) : list (string * Dom.Node) :=
  [("/callback", CallbackHandler.view); ("/", home s)].

End Routed.

(** ** Vocabulary of the statements *)

Module Obs.
Import Wrap.

(** What invocation [k] of [fetchWrapData] did, and when. *)
Definition own (k : nat) (l : list Entry) : list (nat * Action) :=
  (fun e => (time e, act e)) <$> filter (fun e => who e = Some k) l.

(** The event belongs to invocation [k]. *)
Definition of_cycle (k : nat) (e : Event) : bool :=
  match e with
  | Timer j | UserInfo j _ | TopTracks j _ => bool_decide (j = k)
  | Call _ | Outside _ => false
  end.

(** The invocation has run its last handler. *)
Definition completed (c : Cycle) : bool :=
  match c with
  | Committed | Caught _ _ => true
  | FadingOut _ _ | Fetching _ _ | FadingIn _ _ => false
  end.

(** The request failed: the network failed or the status is not 2xx. *)
Definition failure {A} (r : Js.FetchResult A) : bool :=
  match r with
  | Js.NetworkFailure _ => true
  | Js.Response status _ => negb (Js.ok status)
  end.

(** The error such a failure carries into [.catch]. *)
Definition raised {A} (label : string) (r : Js.FetchResult A) : Js.Error :=
  match r with
  | Js.NetworkFailure e => e
  | Js.Response status _ => Js.new_Error (label +:+ pretty status)
  end.


Definition failing (t2 : nat) (e : Js.Error) : list (nat * Action) :=
  [(t2, ConsoleError "Error fetching data:" e); (t2, SetError e);
   (t2, SetIsReloading false)].

Section Story.
Variable top_tracks_prefix : string.

Definition opening (t0 : nat) : list (nat * Action) :=
  [(t0, SetIsReloading true); (t0, SetTimeout 300)].

Definition requests (t1 : nat) (l : Js.number) : list (nat * Action) :=
  [(t1, Fetch user_info_request);
   (t1, Fetch (top_tracks_request top_tracks_prefix l))].

Definition arrival (t2 : nat) (u : UserProfile) : list (nat * Action) :=
  [(t2, SetDisplayName (Js.or_else (display_name u) "User"));
   (t2, SetTimeout 100)].

Definition closing (t3 : nat) (d : list Track) : list (nat * Action) :=
  [(t3, SetTracks d); (t3, SetIsReloading false)].

(** The calls an invocation has made so far, by where it stands. *)
Inductive Story : Cycle -> list (nat * Action) -> Prop :=
| story_fading_out t0 l :
    Story (FadingOut (t0 + 300) l) (opening t0)
| story_fetching t0 t1 l u d :
    (t0 + 300 <= t1)%nat ->
    u = None \/ d = None ->
    Story (Fetching u d) (opening t0 ++ requests t1 l)
| story_fading_in t0 t1 t2 l u d :
    (t0 + 300 <= t1)%nat -> (t1 <= t2)%nat ->
    Story (FadingIn (t2 + 100) d)
      (opening t0 ++ requests t1 l ++ arrival t2 u)
| story_committed t0 t1 t2 t3 l u d :
    (t0 + 300 <= t1)%nat -> (t1 <= t2)%nat -> (t2 + 100 <= t3)%nat ->
    Story Committed
      (opening t0 ++ requests t1 l ++ arrival t2 u ++ closing t3 d)
| story_caught t0 t1 t2 l e a b :
    (t0 + 300 <= t1)%nat -> (t1 <= t2)%nat ->
    Story (Caught a b) (opening t0 ++ requests t1 l ++ failing t2 e).
End Story.

(** The hook a call writes, if any. *)
Definition writes (a : Action) : option string :=
  match a with
  | SetDisplayName _ => Some "displayName"
  | SetTracks _ => Some "tracks"
  | SetLimit _ => Some "limit"
  | SetError _ => Some "error"
  | SetIsReloading _ => Some "isReloading"
  | SetIsLoggedIn _ => Some "isLoggedIn"
  | SetTimeout _ | Fetch _ | ConsoleLog _ _ | ConsoleError _ _ | Navigate _ =>
      None
  end.

(** What the log has gained between [m0] and [m]. *)
Definition since {S : Type} (m0 m : Machine (S := S)) : list Entry :=
  drop (length (log m0)) (log m).

(** The value of [tracks] after the calls in [l], starting from [d]. *)
Definition last_tracks (d : list Track) (l : list Entry) : list Track :=
  foldl (fun d e => match act e with SetTracks v => v | _ => d end) d l.

(** The outcome of a turn of the loop in which the [.catch] handler of
    invocation [k] ran at time [t] with [err]: [m0] is the machine before
    the invocation started, [m1] the one before the turn.  The invocation
    has never written [tracks]; so [tracks] has its value from before the
    invocation unless someone else has written it since. *)
Definition caught_by {S : Type} `{Hooks S} (k t : nat) (err : Js.Error)
    (m0 m1 : Machine (S := S)) (turn : option (Machine (S := S))) : Prop :=
  exists m2,
    turn = Some m2 /\
    error (ui m2) = Some err /\
    isReloading (ui m2) = false /\
    tracks (ui m2) = tracks (ui m1) /\
    own k (log m2) = own k (log m1) ++ failing t err /\
    (exists a b, cycles m2 !! k = Some (Caught a b)) /\
    (forall e, e ∈ since m0 m2 -> who e = Some k ->
               writes (act e) <> Some "tracks") /\
    ((forall e, e ∈ since m0 m2 -> who e <> Some k ->
                writes (act e) <> Some "tracks") ->
     tracks (ui m2) = tracks (ui m0)).

(** The path and query of a backend URL. *)
Definition path_of (u : string) : option string := Js.strip_prefix backend u.

(** [<p>No tracks found.</p>] *)
Definition is_no_tracks_message (n : Dom.Node) : bool :=
  match n with
  | Dom.Elem "p" [] [Dom.Text "No tracks found."] => true
  | _ => false
  end.

(** The message is shown: it is a child of the card container. *)
Definition no_tracks_shown (n : Dom.Node) : bool :=
  existsb (fun c => existsb is_no_tracks_message (Dom.children_of c))
    (Dom.by_class "card-container" n).

(** The cards shown. *)
Definition cards (n : Dom.Node) : list Dom.Node := Dom.by_class "card" n.


Definition rejected {A} (p : Js.Settled A) : bool :=
  match p with
  | Js.Rejected _ => true
  | Js.Fulfilled _ => false
  end.

(** A turn in which nothing calls [setError]: no request is rejected and
    no outside handler sets the error. *)
Definition quiet (e : Event) : bool :=
  match e with
  | UserInfo _ r => negb (rejected (user_info_then r))
  | TopTracks _ r => negb (rejected (top_tracks_then r))
  | Outside acts =>
      forallb (fun a => negb (bool_decide (writes a = Some "error"))) acts
  | Call _ | Timer _ => true
  end.


(** How often the probe request of the routed revision has gone out. *)
Definition probes (c : Routed.Config) : nat :=
  length (filter (fun e => act e = Fetch Routed.probe_request)
            (log (Routed.machine c))).

(** What holds of the routed revision whatever happens to it. *)
Definition invariant (c : Routed.Config) : Prop :=
  cycles (Routed.machine c) = [] /\
  tracks (ui (Routed.machine c)) = [] /\
  isReloading (ui (Routed.machine c)) = false /\
  error (ui (Routed.machine c)) = None /\
  Forall (fun e => who e = None) (log (Routed.machine c)) /\
  probes c = match Routed.probe c with Routed.NotSent => 0%nat | _ => 1%nat end.

(** A machine in which [fetchWrapData] has not been invoked yet. *)
Definition fresh {S : Type} (m : Machine (S := S)) : Prop :=
  cycles m = [] /\ log m = [].

(** The log agrees with where every invocation stands, and no entry is
    from the future. *)
Definition consistent {S : Type} (top_tracks_prefix : string)
    (m : Machine (S := S)) : Prop :=
  (forall k c, cycles m !! k = Some c ->
               Story top_tracks_prefix c (own k (log m))) /\
  (forall k, (length (cycles m) <= k)%nat -> own k (log m) = []) /\
  (forall e, e ∈ log m -> (time e <= now m)%nat).

End Obs.

(** ** Sample data *)

Module Sample.

Definition song : Track := mkTrack "Song" ["A"; "B"] "https://img.example/1".

Definition ann : Js.FetchResult UserProfile :=
  Js.Response 200 (Js.Json (mkUserProfile (Some "Ann"))).

Definition one_track : Js.FetchResult (list Track) :=
  Js.Response 200 (Js.Json [song]).

Definition server_error : Js.FetchResult (list Track) :=
  Js.Response 500 (Js.NotJson (Js.mkError "SyntaxError" "Unexpected token <")).

Definition unauthorized : Js.FetchResult UserProfile :=
  Js.Response 401 (Js.NotJson (Js.mkError "SyntaxError" "Unexpected token <")).

(** frontend/src/App.js before it mounts. *)
Definition unmounted : Wrap.Machine (S := AppJs.State) :=
  Wrap.mkMachine AppJs.initial [] [] 0.

(** One invocation whose two requests fulfil. *)
Definition good_cycle (k : nat) (t : nat) (l : Z) : list (nat * Wrap.Event) :=
  [(t, Wrap.Call (Js.Int l)); (t + 300, Wrap.Timer k);
   (t + 350, Wrap.UserInfo k ann); (t + 360, Wrap.TopTracks k one_track);
   (t + 460, Wrap.Timer k)]%nat.

(** One invocation whose top-tracks request fails. *)
Definition bad_cycle (k : nat) (t : nat) (l : Z) : list (nat * Wrap.Event) :=
  [(t, Wrap.Call (Js.Int l)); (t + 300, Wrap.Timer k);
   (t + 350, Wrap.TopTracks k server_error)]%nat.

(** One invocation both of whose requests fail, top-tracks first. *)
Definition both_fail : list (nat * Wrap.Event) :=
  [(0, Wrap.Call (Js.Int 5)); (300, Wrap.Timer 0);
   (350, Wrap.TopTracks 0 server_error); (360, Wrap.UserInfo 0 unauthorized)]%nat.

(** frontend/src/App.js: the dropdown is set to 3 right after the mount;
    the first invocation commits, then the second one fails. *)
Definition overlap : list (nat * AppJs.Event) :=
  [(0, AppJs.Mount); (10, AppJs.Change "3");
   (300, AppJs.Timer 0); (310, AppJs.Timer 1);
   (320, AppJs.UserInfo 0 ann); (330, AppJs.TopTracks 0 one_track);
   (430, AppJs.Timer 0); (500, AppJs.TopTracks 1 server_error)]%nat.

(** The routed revision: mount, a good probe, then the dropdown set to 3. *)
Definition login_then_change : list (nat * Routed.Event) :=
  [(0, Routed.Mount); (120, Routed.ProbeResult ann);
   (5000, Routed.Change "3")]%nat.

End Sample.

(** ** The words of the specification about a run *)

Module Outcome.
Import Wrap Obs.









End Outcome.

(** ** What the runs of the component are measured against *)

Module Flow.
Import Wrap Obs.

(** The string [event.target.value] reports when the option [n] is
    chosen: its [value] attribute, as a string. *)
Definition value_of (n : Dom.Node) : option string :=
  match Dom.attr "value" n with
  | Some (Dom.Num v) => Some (Js.number_to_string v)
  | Some (Dom.Str s) => Some s
  | _ => None
  end.

(** The values the dropdown can report. *)
Definition option_values : list string := omap value_of View.options.

(** The event is one the dropdown can raise. *)
Definition from_dropdown (e : AppJs.Event) : bool :=
  match e with
  | AppJs.Change value => bool_decide (value ∈ option_values)
  | _ => true
  end.

(** 1 to 10, the range the backend is meant to be asked for. *)
Definition in_range (n : Js.number) : bool :=
  match n with
  | Js.Int z => (1 <=? z)%Z && (z <=? 10)%Z
  | Js.NaN => false
  end.

(** The invocations the effect on [limit] owes for the events [tr], when
    [limit] is [l] before them: when, and for which limit.  The effect
    runs on mount and after a render in which [limit] has changed. *)
Fixpoint wanted (l : Js.number) (tr : list (nat * AppJs.Event))
    : list (nat * Js.number) :=
  match tr with
  | [] => []
  | (t, AppJs.Mount) :: tr' => (t, l) :: wanted l tr'
  | (t, AppJs.Change value) :: tr' =>
      (if decide (Js.parseInt value = l) then []
       else [(t, Js.parseInt value)]) ++
      wanted (Js.parseInt value) tr'
  | _ :: tr' => wanted l tr'
  end.

(** What the backend has answered during a run: the track lists and the
    names of the fulfilled requests, the errors of the rejected ones. *)
Definition tracks_of (e : AppJs.Event) : option (list Track) :=
  match e with
  | AppJs.TopTracks _ r =>
      match top_tracks_then r with
      | Js.Fulfilled d => Some d
      | Js.Rejected _ => None
      end
  | _ => None
  end.

Definition name_of (e : AppJs.Event) : option string :=
  match e with
  | AppJs.UserInfo _ r =>
      match user_info_then r with
      | Js.Fulfilled u => Some (Js.or_else (display_name u) "User")
      | Js.Rejected _ => None
      end
  | _ => None
  end.

Definition error_of (e : AppJs.Event) : option Js.Error :=
  match e with
  | AppJs.UserInfo _ r =>
      match user_info_then r with
      | Js.Rejected err => Some err
      | Js.Fulfilled _ => None
      end
  | AppJs.TopTracks _ r =>
      match top_tracks_then r with
      | Js.Rejected err => Some err
      | Js.Fulfilled _ => None
      end
  | _ => None
  end.

Definition received {A} (f : AppJs.Event -> option A)
    (tr : list (nat * AppJs.Event)) : list A :=
  omap (fun te => f (snd te)) tr.

(** Some invocation is in a state that satisfies [p]. *)
Definition some (p : Cycle -> bool) (cs : list Cycle) : Prop :=
  exists k c, cs !! k = Some c /\ p c = true.

Definition running (c : Cycle) : bool := negb (completed c).

Definition is_caught (c : Cycle) : bool :=
  match c with Caught _ _ => true | _ => false end.

Definition is_committed (c : Cycle) : bool :=
  match c with Committed => true | _ => false end.

(** A turn of frontend/src/App.js seen from the loop: the only handler
    besides [fetchWrapData] is [handleLimitChange], one [setLimit]. *)
Definition from_component (e : Event) : bool :=
  match e with
  | Outside [SetLimit _] => true
  | Outside _ => false
  | Call _ | Timer _ | UserInfo _ _ | TopTracks _ _ => true
  end.

(** The hooks agree with where the invocations stand. *)
Definition explained {S : Type} `{Hooks S} (m : Machine (S := S)) : Prop :=
  (isReloading (ui m) = true -> some running (cycles m)) /\
  (is_Some (error (ui m)) <-> some is_caught (cycles m)) /\
  (tracks (ui m) <> [] -> some is_committed (cycles m)).

(** The invocations made are the ones of [W], and every request serves
    the limit its invocation was made for. *)
Definition served {S : Type} (p : string) (W : list (nat * Js.number))
    (m : Machine (S := S)) : Prop :=
  length (cycles m) = length W /\
  (forall k due l, cycles m !! k = Some (FadingOut due l) ->
                   exists t, W !! k = Some (t, l)) /\
  (forall k t l, W !! k = Some (t, l) ->
                 mkEntry t (Some k) (SetIsReloading true) ∈ log m) /\
  (forall e r, e ∈ log m -> act e = Fetch r ->
               r = user_info_request \/
               exists k t l, who e = Some k /\ W !! k = Some (t, l) /\
                             r = top_tracks_request p l).

(** Everything the hooks and the pending invocations hold has arrived:
    it is among the track lists [T], the names [N] and the errors [E]. *)
Definition arrived {S : Type} `{Hooks S} (T : list (list Track))
    (N : list string) (E : list Js.Error) (m : Machine (S := S)) : Prop :=
  (tracks (ui m) = [] \/ tracks (ui m) ∈ T) /\
  (displayName (ui m) = "" \/ displayName (ui m) ∈ N) /\
  (forall e, error (ui m) = Some e -> e ∈ E) /\
  (forall k c, cycles m !! k = Some c ->
     match c with
     | Fetching u d =>
         (forall u', u = Some u' ->
                     Js.or_else (display_name u') "User" ∈ N) /\
         (forall d', d = Some d' -> d' ∈ T)
     | FadingIn _ d => d ∈ T
     | FadingOut _ _ | Committed | Caught _ _ => True
     end).

Definition is_fetch (a : Action) : bool :=
  match a with Fetch _ => true | _ => false end.

Definition is_navigate (a : Action) : bool :=
  match a with Navigate _ => true | _ => false end.

End Flow.

(** ** More sample runs *)

Module Cases.
Import Sample.

Definition two_tracks : Js.FetchResult (list Track) :=
  Js.Response 200
    (Js.Json [song; mkTrack "Tune" ["C"] "https://img.example/2"]).

(** frontend/src/App.js: mount, and one invocation that succeeds. *)
Definition first_load : list (nat * AppJs.Event) :=
  [(0, AppJs.Mount); (300, AppJs.Timer 0);
   (350, AppJs.UserInfo 0 ann); (360, AppJs.TopTracks 0 two_tracks);
   (460, AppJs.Timer 0)]%nat.

(** Two invocations whose answers cross: the one made later (for 3
    tracks) is answered first; both wait for their 100 ms timers. *)
Definition crossing : list (nat * Wrap.Event) :=
  [(0, Wrap.Call (Js.Int 5)); (10, Wrap.Call (Js.Int 3));
   (300, Wrap.Timer 0); (310, Wrap.Timer 1);
   (320, Wrap.UserInfo 1 ann); (330, Wrap.TopTracks 1 one_track);
   (340, Wrap.UserInfo 0 ann); (350, Wrap.TopTracks 0 two_tracks)]%nat.

(** The OAuth callback with a code, answered with a JSON body. *)
Definition callback : list CallbackHandler.Event :=
  [CallbackHandler.Mount [("code", "abc"); ("state", "xyz")];
   CallbackHandler.Result (Js.Response 200 (Js.Json "{}"))].

End Cases.

(** * Facts *)

(** ** The event loop *)

(** Read a hook after a handler has run. *)
Ltac hooks :=
  unfold Wrap.fetchWrapData, Wrap.start_requests, Wrap.all_fulfilled,
    Wrap.commit, Wrap.catch, Wrap.silent, Wrap.perform;
  cbn [Wrap.ui Wrap.cycles Wrap.log Wrap.now foldl map];
  rewrite ?displayName_apply, ?tracks_apply, ?limit_apply, ?error_apply,
    ?isReloading_apply.

(** Expose the [perform] inside a handler. *)
Ltac handlers :=
  unfold Wrap.fetchWrapData, Wrap.start_requests, Wrap.all_fulfilled,
    Wrap.commit, Wrap.catch, Wrap.silent.

(** All the ways a turn of the loop can succeed. *)
Ltac step_inv H :=
  unfold Wrap.step in H;
  repeat (match type of H with
          | context [match ?x with _ => _ end] => destruct x eqn:?
          end; try discriminate H);
  inversion H; subst; clear H.

Module WrapFacts.
Import Wrap Obs.

Section Loop.
Context {S : Type} `{Hooks S}.
Variable top_tracks_prefix : string.

Abbreviation step := (Wrap.step top_tracks_prefix).
Abbreviation run := (Wrap.run top_tracks_prefix).
Abbreviation Machine := (Wrap.Machine (S := S)).

Lemma own_app k l1 l2 : own k (l1 ++ l2) = own k l1 ++ own k l2.
Proof. unfold own. by rewrite filter_app, fmap_app. Qed.

Lemma own_entries_same k t (acts : list Action) :
  own k (map (mkEntry t (Some k)) acts) = map (fun a => (t, a)) acts.
Proof.
  unfold own. induction acts as [|a acts IH]; [done|].
  cbn [map]. rewrite filter_cons_True by done. cbn. by f_equal.
Qed.

Lemma own_entries_other k w t (acts : list Action) :
  w <> Some k -> own k (map (mkEntry t w) acts) = [].
Proof.
  intros Hw. unfold own. induction acts as [|a acts IH]; [done|].
  cbn [map]. by rewrite filter_cons_False by done.
Qed.

Lemma own_perform k w t acts cs (m : Machine) :
  own k (log (perform w t acts cs m)) =
    own k (log m) ++
    (if decide (w = Some k) then map (fun a => (t, a)) acts else []).
Proof.
  change (log (perform w t acts cs m)) with (log m ++ map (mkEntry t w) acts).
  rewrite own_app. f_equal. case_decide as Hw.
  - subst w. apply own_entries_same.
  - by apply own_entries_other.
Qed.

Lemma ui_perform w t acts cs (m : Machine) :
  ui (perform w t acts cs m) = foldl (fun s a => apply a s) (ui m) acts.
Proof. reflexivity. Qed.

Lemma own_elem k l t a :
  (t, a) ∈ own k l -> exists e, e ∈ l /\ time e = t.
Proof.
  unfold own. intros Hin.
  apply list_elem_of_fmap in Hin as (e & Heq & He).
  apply list_elem_of_filter in He as [_ He].
  exists e. split; [done|]. by inversion Heq.
Qed.

Lemma fresh_consistent (m : Machine) :
  fresh m -> consistent top_tracks_prefix m.
Proof.
  intros [Hc Hl]. unfold consistent. rewrite Hc, Hl.
  split; [|split].
  - intros k c Hk. by rewrite lookup_nil in Hk.
  - done.
  - intros e He. by apply elem_of_nil in He.
Qed.

(** A handler of invocation [k] keeps the log and the bookkeeping in
    step, provided the calls it adds continue the story of [k]. *)
Lemma consistent_perform_own k c' acts t (m : Machine) :
  consistent top_tracks_prefix m ->
  (now m <= t)%nat ->
  (k < length (cycles m))%nat ->
  Story top_tracks_prefix c'
    (own k (log m) ++ map (fun a => (t, a)) acts) ->
  consistent top_tracks_prefix
    (perform (Some k) t acts (<[k := c']> (cycles m)) m).
Proof.
  intros (Hst & Hout & Htime) Hnow Hk Hnew. split; [|split].
  - intros k' c Hlook. rewrite own_perform.
    change (cycles (perform (Some k) t acts (<[k:=c']> (cycles m)) m))
      with (<[k:=c']> (cycles m)) in Hlook.
    destruct (decide (k = k')) as [<-|Hne].
    + rewrite list_lookup_insert_eq in Hlook by done.
      inversion Hlook; subst c. by rewrite decide_True by done.
    + rewrite list_lookup_insert_ne in Hlook by done.
      rewrite decide_False by congruence. rewrite app_nil_r. eauto.
  - intros k' Hk'. rewrite own_perform.
    change (cycles (perform (Some k) t acts (<[k:=c']> (cycles m)) m))
      with (<[k:=c']> (cycles m)) in Hk'.
    rewrite length_insert in Hk'.
    rewrite decide_False by (intros [= ->]; lia).
    rewrite app_nil_r. eauto.
  - intros e He.
    change (log (perform (Some k) t acts (<[k:=c']> (cycles m)) m))
      with (log m ++ map (mkEntry t (Some k)) acts) in He.
    change (now (perform (Some k) t acts (<[k:=c']> (cycles m)) m)) with t.
    apply elem_of_app in He as [He|He].
    + apply Htime in He. lia.
    + apply list_elem_of_fmap in He as (a & -> & _). done.
Qed.

Lemma consistent_perform_outside acts t (m : Machine) :
  consistent top_tracks_prefix m ->
  (now m <= t)%nat ->
  consistent top_tracks_prefix (perform None t acts (cycles m) m).
Proof.
  intros (Hst & Hout & Htime) Hnow. split; [|split].
  - intros k c Hlook. rewrite own_perform.
    rewrite decide_False by done. rewrite app_nil_r. eauto.
  - intros k Hk. rewrite own_perform.
    rewrite decide_False by done. rewrite app_nil_r. eauto.
  - intros e He.
    change (log (perform None t acts (cycles m) m))
      with (log m ++ map (mkEntry t None) acts) in He.
    change (now (perform None t acts (cycles m) m)) with t.
    apply elem_of_app in He as [He|He].
    + apply Htime in He. lia.
    + apply list_elem_of_fmap in He as (a & -> & _). done.
Qed.

Lemma consistent_fetchWrapData l t (m : Machine) :
  consistent top_tracks_prefix m ->
  (now m <= t)%nat ->
  consistent top_tracks_prefix (fetchWrapData l t m).
Proof.
  intros (Hst & Hout & Htime) Hnow. unfold fetchWrapData.
  split; [|split].
  - intros k' c Hlook. rewrite own_perform.
    change (cycles (perform _ t _ (cycles m ++ [FadingOut (t + 300) l]) m))
      with (cycles m ++ [FadingOut (t + 300) l]) in Hlook.
    destruct (decide (length (cycles m) = k')) as [Heq|Hne].
    + rewrite decide_True by congruence.
      rewrite lookup_app_r in Hlook by lia.
      replace (k' - length (cycles m))%nat with 0%nat in Hlook by lia.
      inversion Hlook; subst c. rewrite Hout by lia.
      apply story_fading_out.
    + rewrite decide_False by congruence. rewrite app_nil_r.
      apply Hst. apply lookup_lt_Some in Hlook as Hlt.
      rewrite length_app in Hlt. cbn in Hlt.
      rewrite lookup_app_l in Hlook by lia. done.
  - intros k' Hk'. rewrite own_perform.
    change (cycles (perform _ t _ (cycles m ++ [FadingOut (t + 300) l]) m))
      with (cycles m ++ [FadingOut (t + 300) l]) in Hk'.
    rewrite length_app in Hk'. cbn in Hk'.
    rewrite decide_False by (intros [= <-]; lia).
    rewrite app_nil_r. apply Hout. lia.
  - intros e He.
    change (log (perform ?w t ?acts _ m))
      with (log m ++ map (mkEntry t (Some (length (cycles m))))
              [SetIsReloading true; SetTimeout 300]) in He.
    change (now (perform _ t _ _ m)) with t.
    apply elem_of_app in He as [He|He].
    + apply Htime in He. lia.
    + apply list_elem_of_fmap in He as (a & -> & _). done.
Qed.

(** The requests of an invocation that is fetching went out in the past. *)
Lemma requests_in_past t0 t1 l k (m : Machine) :
  consistent top_tracks_prefix m ->
  opening t0 ++ requests top_tracks_prefix t1 l = own k (log m) ->
  (t1 <= now m)%nat.
Proof.
  intros (_ & _ & Htime) Hown.
  assert ((t1, Fetch user_info_request) ∈ own k (log m)) as Hin.
  { rewrite <- Hown. cbn. do 2 apply list_elem_of_further. apply list_elem_of_here. }
  apply own_elem in Hin as (e & He & <-). by apply Htime.
Qed.

Theorem consistent_step t e (m m' : Machine) :
  consistent top_tracks_prefix m ->
  step t e m = Some m' ->
  consistent top_tracks_prefix m'.
Proof.
  intros Hc Hstep. unfold Wrap.step in Hstep.
  case_decide as Hnow; [|done].
  destruct e as [l|k|k r|k r|acts];
    [ | destruct (cycles m !! k) as [c|] eqn:Hk; [|done];
        pose proof (lookup_lt_Some _ _ _ Hk) as Hlt;
        pose proof (proj1 Hc _ _ Hk) as Hstory .. | ].
  - inversion Hstep; subst m'. by apply consistent_fetchWrapData.
  - destruct c; try done;
      (case_decide as Hdue; [|done]); inversion Hstep; subst m';
      (apply consistent_perform_own; [done..|]);
      inversion Hstory; subst; cbn [map]; rewrite <- ?app_assoc;
      econstructor; (lia || by left).
  - destruct c as [| [u|] d | | |[] tf]; try done.
    + inversion Hstory; subst.
      match goal with Heq : _ = own k (log m) |- _ =>
        pose proof (requests_in_past _ _ _ _ _ Hc Heq) as Hpast
      end.
      destruct (user_info_then r) as [u|err], d as [d|];
        inversion Hstep; subst m';
        (apply consistent_perform_own; [done..|]);
        match goal with Heq : _ = own k (log m) |- _ => rewrite <- Heq end;
        cbn [map]; rewrite <- ?app_assoc, ?app_nil_r;
        econstructor; (lia || by right).
    + inversion Hstep; subst m'.
      apply consistent_perform_own; [done..|]. cbn [map]. rewrite app_nil_r.
      inversion Hstory; subst. by econstructor.
  - destruct c as [| u [d|] | | |uf []]; try done.
    + inversion Hstory; subst.
      match goal with Heq : _ = own k (log m) |- _ =>
        pose proof (requests_in_past _ _ _ _ _ Hc Heq) as Hpast
      end.
      destruct (top_tracks_then r) as [d|err], u as [u|];
        inversion Hstep; subst m';
        (apply consistent_perform_own; [done..|]);
        match goal with Heq : _ = own k (log m) |- _ => rewrite <- Heq end;
        cbn [map]; rewrite <- ?app_assoc, ?app_nil_r;
        econstructor; (lia || by left).
    + inversion Hstep; subst m'.
      apply consistent_perform_own; [done..|]. cbn [map]. rewrite app_nil_r.
      inversion Hstory; subst. by econstructor.
  - inversion Hstep; subst m'. by apply consistent_perform_outside.
Qed.

Theorem consistent_run tr : forall (m m' : Machine),
  consistent top_tracks_prefix m ->
  run tr m = Some m' ->
  consistent top_tracks_prefix m'.
Proof.
  induction tr as [|[t e] tr IH]; intros m m' Hc Hrun; cbn in Hrun.
  - by inversion Hrun; subst.
  - destruct (step t e m) as [m1|] eqn:Hstep; [|done].
    eapply IH; [|done]. by eapply consistent_step.
Qed.

(** *** Frame properties of the handlers *)

Lemma run_preserves (P : Machine -> Prop) (Q : Event -> Prop) :
  (forall t e m m', Q e -> P m -> step t e m = Some m' -> P m') ->
  forall tr (m m' : Machine),
    Forall (fun te => Q (snd te)) tr -> P m -> run tr m = Some m' -> P m'.
Proof.
  intros Hstep. induction tr as [|[t e] tr IH]; intros m m' HQ HP Hrun.
  - cbn in Hrun. by inversion Hrun; subst.
  - cbn in Hrun. destruct (step t e m) as [m1|] eqn:Hs; [|done].
    inversion HQ as [|? ? Hq HQ']; subst. cbn in Hq.
    eapply (IH m1); [done| |done]. by eapply Hstep.
Qed.


(** Every turn runs one handler body. *)
Lemma step_performs t e (m m' : Machine) :
  step t e m = Some m' ->
  exists w acts cs, m' = perform w t acts cs m.
Proof. intros Hs. destruct e; step_inv Hs; by eexists _, _, _. Qed.

Lemma run_app tr1 : forall tr2 (m m1 : Machine),
  run tr1 m = Some m1 -> run (tr1 ++ tr2) m = run tr2 m1.
Proof.
  induction tr1 as [|[t e] tr1 IH]; intros tr2 m m1 H1; cbn in *.
  - by inversion H1; subst.
  - destruct (step t e m); [|done]. eauto.
Qed.

Lemma tracks_foldl (acts : list Action) w t (s : S) :
  tracks (foldl (fun s a => apply a s) s acts) =
    last_tracks (tracks s) (map (mkEntry t w) acts).
Proof.
  revert s. induction acts as [|a acts IH]; intros s; [done|].
  cbn. rewrite IH, tracks_apply. by destruct a.
Qed.

Lemma since_perform w t acts cs (m : Machine) :
  since m (perform w t acts cs m) = map (mkEntry t w) acts.
Proof. unfold since. cbn [perform log]. by rewrite drop_app_length. Qed.

(** The log only grows, and [tracks] is what the log says. *)
Lemma run_log tr : forall (m m' : Machine),
  run tr m = Some m' ->
  log m' = log m ++ since m m' /\
  tracks (ui m') = last_tracks (tracks (ui m)) (since m m').
Proof.
  induction tr as [|[t e] tr IH]; intros m m' Hrun; cbn in Hrun.
  - inversion Hrun; subst. unfold since. rewrite drop_all.
    by rewrite app_nil_r.
  - destruct (step t e m) as [m1|] eqn:Hs; [|done].
    destruct (IH _ _ Hrun) as [Hl Ht].
    apply step_performs in Hs as (w & acts & cs & ->).
    assert (since m m' = map (mkEntry t w) acts ++
                         since (perform w t acts cs m) m') as Hsince.
    { unfold since at 1. rewrite Hl. cbn [perform log].
      rewrite <- app_assoc. by rewrite drop_app_length. }
    split.
    + rewrite Hsince, Hl. cbn [perform log]. by rewrite <- app_assoc.
    + rewrite Ht, Hsince. cbn [perform ui]. rewrite (tracks_foldl acts w t).
      unfold last_tracks. by rewrite foldl_app.
Qed.

Lemma last_tracks_kept d (l : list Entry) :
  (forall e, e ∈ l -> writes (act e) <> Some "tracks") ->
  last_tracks d l = d.
Proof.
  revert d. induction l as [|e l IH]; intros d Hl; [done|].
  cbn. rewrite IH.
  - pose proof (Hl e (list_elem_of_here _ _)) as He. by destruct (act e).
  - intros e' He'. apply Hl. by apply list_elem_of_further.
Qed.

(** Once the 100 ms callback of an invocation has run, the invocation
    stays where it is. *)
Lemma committed_step k t e (m m' : Machine) :
  cycles m !! k = Some Committed ->
  step t e m = Some m' ->
  cycles m' !! k = Some Committed.
Proof.
  intros Hk Hs. destruct e as [l|j|j r|j r|acts]; step_inv Hs; handlers;
    cbn [perform cycles]; try done;
    try (by apply lookup_app_l_Some);
    (destruct (decide (j = k)) as [->|Hne];
     [congruence|by rewrite list_lookup_insert_ne]).
Qed.

Lemma committed_run k tr : forall (m m' : Machine),
  cycles m !! k = Some Committed ->
  run tr m = Some m' ->
  cycles m' !! k = Some Committed.
Proof.
  induction tr as [|[t e] tr IH]; intros m m' Hk Hrun; cbn in Hrun.
  - by inversion Hrun; subst.
  - destruct (step t e m) as [m1|] eqn:Hs; [|done].
    eapply IH; [|done]. by eapply committed_step.
Qed.

(** Only the 100 ms callback of an invocation writes [tracks] on its
    behalf. *)
Lemma step_writes_tracks k t e (m m' : Machine) x :
  step t e m = Some m' ->
  x ∈ since m m' -> who x = Some k -> writes (act x) = Some "tracks" ->
  cycles m' !! k = Some Committed.
Proof.
  intros Hs. destruct e as [l|j|j r|j r|acts]; step_inv Hs; handlers;
    rewrite since_perform; cbn [map];
    rewrite ?elem_of_cons, ?elem_of_nil; intros Hin Hw Hx;
    try (decompose [or] Hin; subst; cbn in *; try done;
         match goal with
         | Hj : Some _ = Some _ |- _ => inversion Hj; subst
         end;
         cbn [perform cycles];
         apply list_lookup_insert_eq; by eapply lookup_lt_Some).
  apply list_elem_of_fmap in Hin as (a & -> & _). done.
Qed.

Lemma run_writes_tracks k tr : forall (m m' : Machine) x,
  run tr m = Some m' ->
  x ∈ since m m' -> who x = Some k -> writes (act x) = Some "tracks" ->
  cycles m' !! k = Some Committed.
Proof.
  induction tr as [|[t e] tr IH]; intros m m' x Hrun Hin Hw Hx; cbn in Hrun.
  - inversion Hrun; subst. unfold since in Hin. rewrite drop_all in Hin.
    by apply elem_of_nil in Hin.
  - destruct (step t e m) as [m1|] eqn:Hs; [|done].
    destruct (run_log _ _ _ Hrun) as [Hl _].
    pose proof Hs as Hs'.
    apply step_performs in Hs' as (w & acts & cs & ->).
    assert (since m m' = since m (perform w t acts cs m) ++
                         since (perform w t acts cs m) m') as Hsince.
    { rewrite since_perform. unfold since at 1. rewrite Hl. cbn [perform log].
      rewrite <- app_assoc. by rewrite drop_app_length. }
    rewrite Hsince in Hin. apply elem_of_app in Hin as [Hin|Hin].
    + eapply committed_run; [|done]. by eapply step_writes_tracks.
    + by eapply IH.
Qed.

(** *** The error path *)

Lemma check_response_failure {A} label (r : Js.FetchResult A) :
  failure r = true -> check_response label r = Js.Rejected (raised label r).
Proof.
  destruct r as [e|status body]; cbn; [done|].
  by destruct (Js.ok status).
Qed.

Lemma catch_caught k t err a b tr e (m0 m1 : Machine) :
  run tr m0 = Some m1 ->
  (k < length (cycles m1))%nat ->
  step t e m1 = Some (catch k err a b t m1) ->
  caught_by k t err m0 m1 (step t e m1).
Proof.
  intros Hrun Hk Hs. exists (catch k err a b t m1).
  assert (run (tr ++ [(t, e)]) m0 = Some (catch k err a b t m1)) as Hall.
  { rewrite (run_app _ _ _ _ Hrun). cbn. by rewrite Hs. }
  assert (cycles (catch k err a b t m1) !! k = Some (Caught a b)) as Hc.
  { unfold catch. cbn [perform cycles]. by apply list_lookup_insert_eq. }
  assert (forall x, x ∈ since m0 (catch k err a b t m1) -> who x = Some k ->
                    writes (act x) <> Some "tracks") as Hown.
  { intros x Hin Hw Hx.
    pose proof (run_writes_tracks k _ _ _ x Hall Hin Hw Hx) as Hcom.
    congruence. }
  split; [done|]. split; [unfold catch; by hooks|].
  split; [unfold catch; by hooks|]. split; [unfold catch; by hooks|].
  split; [unfold catch; by rewrite own_perform, decide_True|].
  split; [by exists a, b|]. split; [done|].
  intros Hothers. rewrite (proj2 (run_log _ _ _ Hall)).
  apply last_tracks_kept. intros x Hin Hx.
  destruct (decide (who x = Some k)); [by eapply Hown|by eapply Hothers].
Qed.

(** C1. Whatever else is going on, once the requests of an invocation of
    [fetchWrapData] are out, the first of them to fail (network failure or
    a status outside 200-299) makes the [.catch] handler run in the same
    turn: [error] becomes the error of that request, [isReloading] is
    cleared at once (the calls of the turn are [console.error],
    [setError], [setIsReloading(false)]; no timer is set and the
    invocation is over) and the turn leaves [tracks] alone.  The
    invocation has never written [tracks]: it still has its value from
    before the invocation started unless another handler has written it
    in between.  Once the handler has run, the end of the sibling request
    changes nothing. *)
Theorem first_failure_is_caught (m0 m1 : Machine) l t0 tr t :
  run ((t0, Call l) :: tr) m0 = Some m1 ->
  (now m1 <= t)%nat ->
  (forall d r,
      cycles m1 !! length (cycles m0) = Some (Fetching None d) ->
      failure r = true ->
      caught_by (length (cycles m0)) t (raised "User info HTTP error: " r)
        m0 m1 (step t (UserInfo (length (cycles m0)) r) m1)) /\
  (forall u r,
      cycles m1 !! length (cycles m0) = Some (Fetching u None) ->
      failure r = true ->
      caught_by (length (cycles m0)) t (raised "Top tracks HTTP error: " r)
        m0 m1 (step t (TopTracks (length (cycles m0)) r) m1)) /\
  (forall a b e m2,
      cycles m1 !! length (cycles m0) = Some (Caught a b) ->
      of_cycle (length (cycles m0)) e = true ->
      step t e m1 = Some m2 ->
      ui m2 = ui m1 /\
      own (length (cycles m0)) (log m2) = own (length (cycles m0)) (log m1)).
Proof.
  intros Hrun Hnow. split; [|split].
  - intros d r Hc Hfail.
    assert (exists a b, step t (UserInfo (length (cycles m0)) r) m1 =
                          Some (catch (length (cycles m0))
                                  (raised "User info HTTP error: " r) a b t m1))
      as (a & b & Hs).
    { unfold Wrap.step. rewrite decide_True, Hc by done. unfold user_info_then.
      rewrite check_response_failure by done. destruct d; by eexists _, _. }
    eapply catch_caught; [exact Hrun|by eapply lookup_lt_Some|exact Hs].
  - intros u r Hc Hfail.
    assert (exists a b, step t (TopTracks (length (cycles m0)) r) m1 =
                          Some (catch (length (cycles m0))
                                  (raised "Top tracks HTTP error: " r) a b t m1))
      as (a & b & Hs).
    { unfold Wrap.step. rewrite decide_True, Hc by done. unfold top_tracks_then.
      rewrite check_response_failure by done. destruct u; by eexists _, _. }
    eapply catch_caught; [exact Hrun|by eapply lookup_lt_Some|exact Hs].
  - intros a b e m2 Hc He Hs. destruct e as [|k|k ?|k ?|]; cbn in He; try done;
      apply bool_decide_eq_true in He; subst k;
      step_inv Hs; try congruence;
      handlers; rewrite own_perform, decide_True by done;
      cbn [map]; by rewrite app_nil_r.
Qed.

(** *** The success path *)

Lemma lookup_tail (cs : list Cycle) c : (cs ++ [c]) !! length cs = Some c.
Proof. by rewrite lookup_app_r, Nat.sub_diag by lia. Qed.




Lemma run_cons t e tr (m m1 : Machine) :
  step t e m = Some m1 -> run ((t, e) :: tr) m = run tr m1.
Proof. intros Hs. cbn. by rewrite Hs. Qed.


Lemma step_timer_300 k due l t (m : Machine) :
  cycles m !! k = Some (FadingOut due l) ->
  (now m <= t)%nat -> (due <= t)%nat ->
  step t (Timer k) m = Some (start_requests top_tracks_prefix k l t m).
Proof. intros Hk ? ?. unfold Wrap.step. by rewrite decide_True, Hk, decide_True. Qed.

Lemma step_timer_100 k due d t (m : Machine) :
  cycles m !! k = Some (FadingIn due d) ->
  (now m <= t)%nat -> (due <= t)%nat ->
  step t (Timer k) m = Some (commit k d t m).
Proof. intros Hk ? ?. unfold Wrap.step. by rewrite decide_True, Hk, decide_True. Qed.




(** *** [isReloading] *)




(** *** [error] *)

Lemma foldl_error_kept (acts : list Action) (s : S) :
  is_Some (error s) ->
  is_Some (error (foldl (fun s a => apply a s) s acts)).
Proof.
  revert s. induction acts as [|a acts IH]; intros s Hs; [done|].
  cbn. apply IH. rewrite error_apply. by destruct a.
Qed.

Lemma foldl_error_quiet (acts : list Action) (s : S) :
  forallb (fun a => negb (bool_decide (writes a = Some "error"))) acts = true ->
  error (foldl (fun s a => apply a s) s acts) = error s.
Proof.
  revert s. induction acts as [|a acts IH]; intros s Hq; [done|].
  cbn in *. apply andb_true_iff in Hq as [Ha Hq].
  rewrite IH by done. rewrite error_apply. by destruct a.
Qed.

Lemma step_error_kept t e (m m' : Machine) :
  step t e m = Some m' ->
  is_Some (error (ui m)) -> is_Some (error (ui m')).
Proof.
  intros Hstep Hs. destruct e; step_inv Hstep;
    try (hooks; done).
  unfold perform; cbn [ui]. by apply foldl_error_kept.
Qed.

Lemma step_error_quiet t e (m m' : Machine) :
  step t e m = Some m' ->
  quiet e = true ->
  error (ui m') = error (ui m).
Proof.
  intros Hstep Hq. destruct e; cbn in Hq; step_inv Hstep;
    try (hooks; done);
    try (match goal with
         | Hr : _ = Js.Rejected _ |- _ => by rewrite Hr in Hq
         end).
  unfold perform; cbn [ui]. by apply foldl_error_quiet.
Qed.

Lemma error_line_in_wrap (s : S) e :
  error s = Some e ->
  Dom.Elem "p" [] [Dom.Text "Error: "; Dom.Text (Js.message e)]
    ∈ View.wrap s.
Proof.
  intros He. unfold View.wrap, View.error_line. rewrite He.
  do 2 apply list_elem_of_further. apply list_elem_of_here.
Qed.

(** C9. An invocation of [fetchWrapData] that has run to its 100 ms
    callback has written no hook besides [displayName], [tracks] and
    [isReloading].  No turn of the loop, whoever runs it, clears
    [error]: once set it stays set, and as long as no later turn calls
    [setError] (no request is rejected) it keeps its value and the line
    [Error: <message>] stays in the rendered wrap. *)
Theorem error_is_never_cleared (m0 m : Machine) tr :
  fresh m0 ->
  run tr m0 = Some m ->
  (forall k t a h,
      cycles m !! k = Some Committed ->
      (t, a) ∈ own k (log m) ->
      writes a = Some h ->
      h ∈ ["displayName"; "tracks"; "isReloading"]) /\
  (forall tr' m' e,
      run tr' m = Some m' ->
      error (ui m) = Some e ->
      is_Some (error (ui m')) /\
      (Forall (fun te => quiet (snd te) = true) tr' ->
       error (ui m') = Some e /\
       Dom.Elem "p" [] [Dom.Text "Error: "; Dom.Text (Js.message e)]
         ∈ View.wrap (ui m'))).
Proof.
  intros Hfresh Hrun. split.
  - intros k t a h Hk Hin Hw.
    eapply consistent_run in Hrun; [|by apply fresh_consistent].
    apply Hrun in Hk. inversion Hk as [| | |t0 t1 t2 t3 l u d ? ? ? Hc Hown|].
    rewrite <- Hown in Hin. cbn in Hin.
    repeat (apply elem_of_cons in Hin as [Hin|Hin];
            [inversion Hin; subst; cbn in Hw; inversion Hw; subst;
             rewrite !elem_of_cons; tauto|]).
    by apply elem_of_nil in Hin.
  - intros tr' m' e Hrun' He. split.
    + eapply (run_preserves (fun m => is_Some (error (ui m))) (fun _ => True));
        [| |by rewrite He|exact Hrun'].
      * intros. by eapply step_error_kept.
      * by apply Forall_forall.
    + intros Hq.
      assert (error (ui m') = Some e) as He'.
      { eapply (run_preserves (fun m => error (ui m) = Some e)
                  (fun ev => quiet ev = true));
          [|exact Hq|exact He|exact Hrun'].
        intros t ev m1 m2 Hqe Hm1 Hs.
        by rewrite (step_error_quiet _ _ _ _ Hs Hqe). }
      split; [done|]. by apply error_line_in_wrap.
Qed.

End Loop.
End WrapFacts.

(** ** What an invocation owes to the answers of the run *)

Module CycleFacts.
Import Wrap Obs Outcome.





Section Loop.
Context {S : Type} `{Hooks S}.
Variable top_tracks_prefix : string.














End Loop.
End CycleFacts.
(** ** frontend/src/App.js *)

Module AppJsFacts.
Import Wrap Obs AppJs.




(** The effect on [limit] starts a cycle on mount and whenever a change
    of the dropdown changes [limit], and at no other turn. *)
Lemma step_starts t e (c c' : Config) :
  AppJs.step t e c = Some c' ->
  match e with
  | Mount =>
      cycles (machine c') =
        cycles (machine c) ++ [FadingOut (t + 300) (limit (ui (machine c)))]
  | Change value =>
      limit (ui (machine c')) = Js.parseInt value /\
      cycles (machine c') =
        cycles (machine c) ++
        (if decide (Js.parseInt value = limit (ui (machine c))) then []
         else [FadingOut (t + 300) (Js.parseInt value)])
  | Timer _ | UserInfo _ _ | TopTracks _ _ =>
      length (cycles (machine c')) = length (cycles (machine c))
  end.
Proof.
  intros Hs. destruct e; cbn in Hs.
  - destruct (mounted c); [done|]. unfold effect in Hs.
    destruct (Wrap.step _ _ _ (machine c)) as [m'|] eqn:Hw; [|done].
    inversion Hs; subst. step_inv Hw. done.
  - destruct (mounted c); [|done]. unfold handleLimitChange in Hs.
    destruct (Wrap.step _ _ (Outside _) (machine c)) as [m1|] eqn:Hw; [|done].
    cbn in Hs. step_inv Hw. case_decide as Hl.
    + inversion Hs; subst. cbn. by rewrite app_nil_r.
    + unfold effect in Hs.
      destruct (Wrap.step _ _ (Call _) _) as [m2|] eqn:Hw2; [|done].
      inversion Hs; subst. step_inv Hw2. done.
  - destruct (Wrap.step _ _ _ (machine c)) as [m'|] eqn:Hw; [|done].
    inversion Hs; subst. step_inv Hw; handlers; cbn; by rewrite length_insert.
  - destruct (Wrap.step _ _ _ (machine c)) as [m'|] eqn:Hw; [|done].
    inversion Hs; subst. step_inv Hw; handlers; cbn; by rewrite length_insert.
  - destruct (Wrap.step _ _ _ (machine c)) as [m'|] eqn:Hw; [|done].
    inversion Hs; subst. step_inv Hw; handlers; cbn; by rewrite length_insert.
Qed.

Lemma strip_prefix_app (p q : string) : Js.strip_prefix p (p +:+ q) = Some q.
Proof.
  induction p as [|a p IH]; [done|].
  change (Js.strip_prefix (String a p) (String a p +:+ q))
    with (if decide (a = a) then Js.strip_prefix p (p +:+ q) else None).
  by rewrite decide_True.
Qed.

(** C6. In frontend/src/App.js the top-tracks request of
    [fetchWrapData(N)], sent together with the user-info request by the
    300 ms callback, is a GET with credentials included, but its path
    is [//top-tracks?limit=N], with a doubled slash, and not
    [/top-tracks?limit=N]. *)
Theorem top_tracks_path_has_doubled_slash (l : Js.number) :
  let r := top_tracks_request top_tracks_prefix l in
  Js.method r = "GET" /\
  Js.credentials r = "include" /\
  path_of (Js.url r) = Some ("//top-tracks?limit=" +:+ Js.number_to_string l) /\
  path_of (Js.url r) <> Some ("/top-tracks?limit=" +:+ Js.number_to_string l) /\
  Js.url (top_tracks_request top_tracks_prefix (Js.Int 5)) =
    "https://monthlywrap.onrender.com//top-tracks?limit=5" /\
  (forall (m : Machine (S := State)) k due t,
      cycles m !! k = Some (FadingOut due l) ->
      (now m <= t)%nat -> (due <= t)%nat ->
      exists m',
        Wrap.step top_tracks_prefix t (Wrap.Timer k) m = Some m' /\
        since m m' = [mkEntry t (Some k) (Fetch user_info_request);
                      mkEntry t (Some k) (Fetch r)]).
Proof.
  assert (path_of (Js.url (top_tracks_request top_tracks_prefix l))
          = Some ("//top-tracks?limit=" +:+ Js.number_to_string l)) as Hp.
  { unfold path_of. apply (strip_prefix_app backend). }
  cbn zeta. split; [done|]. split; [done|]. split; [exact Hp|].
  split; [|split; [by vm_compute|]].
  - rewrite Hp. intros Heq. cbn in Heq. discriminate Heq.
  - intros m k due t Hk Hnow Hdue. eexists. split.
    + by apply (WrapFacts.step_timer_300 _ k due).
    + unfold start_requests. apply WrapFacts.since_perform.
Qed.

End AppJsFacts.

(** ** Rendering *)

Module ViewFacts.
Import Dom View Obs.

Lemma filter_concat_map {A B} (P : B -> Prop) `{!forall x, Decision (P x)}
    (f : A -> list B) (l : list A) :
  filter P (concat (map f l)) = concat (map (fun x => filter P (f x)) l).
Proof.
  induction l as [|x l IH]; [done|]. cbn. by rewrite filter_app, IH.
Qed.

(** A query on an element: the element itself if it matches, then the
    matches below each child. *)
Lemma filter_elem (P : Node -> Prop) `{!forall x, Decision (P x)} tg at_ cs :
  filter P (descendants (Elem tg at_ cs)) =
    filter P [Elem tg at_ cs] ++
    concat (map (fun c => filter P (descendants c)) cs).
Proof.
  cbn [descendants].
  change (Elem tg at_ cs :: concat (map descendants cs))
    with ([Elem tg at_ cs] ++ concat (map descendants cs)).
  by rewrite filter_app, filter_concat_map.
Qed.

Lemma concat_imap_nil {A B} (f : nat -> A -> list B) (l : list A) :
  (forall i x, f i x = []) -> concat (imap f l) = [].
Proof.
  revert f. induction l as [|x l IH]; intros f Hf; [done|].
  cbn. rewrite Hf. cbn. apply IH. intros. apply Hf.
Qed.

Lemma concat_imap_singleton {A B} (f : nat -> A -> B) (l : list A) :
  concat (imap (fun i x => [f i x]) l) = imap f l.
Proof.
  revert f. induction l as [|x l IH]; intros f; [done|].
  cbn. f_equal. apply (IH (f ∘ S)).
Qed.

Lemma map_imap {A B C} (g : B -> C) (f : nat -> A -> B) (l : list A) :
  map g (imap f l) = imap (fun i x => g (f i x)) l.
Proof.
  revert f. induction l as [|x l IH]; intros f; [done|].
  cbn. f_equal. apply (IH (f ∘ S)).
Qed.

Section View.
Context {S : Type} `{Hooks S}.

Lemma card_is_card i t : by_class "card" (card i t) = [card i t].
Proof. reflexivity. Qed.

Lemma card_no_container i t : by_class "card-container" (card i t) = [].
Proof. reflexivity. Qed.

Lemma card_no_select i t : by_tag "select" (card i t) = [].
Proof. reflexivity. Qed.

Lemma card_no_login i t : by_class "login-button" (card i t) = [].
Proof. reflexivity. Qed.

Lemma card_no_h1 i t : by_tag "h1" (card i t) = [].
Proof. reflexivity. Qed.

Lemma card_is_no_message i t : is_no_tracks_message (card i t) = false.
Proof. reflexivity. Qed.

Lemma container_cards (s : S) :
  by_class "card" (card_container s) = imap card (tracks s).
Proof.
  unfold by_class, card_container. rewrite filter_elem, map_app, concat_app.
  rewrite map_imap, (concat_imap_singleton card). unfold no_tracks.
  destruct (isReloading s), (bool_decide (length (tracks s) = 0%nat));
    reflexivity.
Qed.

Lemma container_is_container (s : S) :
  by_class "card-container" (card_container s) = [card_container s].
Proof.
  unfold by_class, card_container. rewrite filter_elem, map_app, concat_app.
  rewrite map_imap, concat_imap_nil by apply card_no_container.
  unfold no_tracks.
  destruct (isReloading s), (bool_decide (length (tracks s) = 0%nat));
    reflexivity.
Qed.

Lemma container_no_select (s : S) : by_tag "select" (card_container s) = [].
Proof.
  unfold by_tag, card_container. rewrite filter_elem, map_app, concat_app.
  rewrite map_imap, concat_imap_nil by apply card_no_select.
  unfold no_tracks.
  destruct (isReloading s), (bool_decide (length (tracks s) = 0%nat));
    reflexivity.
Qed.

Lemma container_no_login (s : S) :
  by_class "login-button" (card_container s) = [].
Proof.
  unfold by_class, card_container. rewrite filter_elem, map_app, concat_app.
  rewrite map_imap, concat_imap_nil by apply card_no_login.
  unfold no_tracks.
  destruct (isReloading s), (bool_decide (length (tracks s) = 0%nat));
    reflexivity.
Qed.

Lemma container_no_h1 (s : S) : by_tag "h1" (card_container s) = [].
Proof.
  unfold by_tag, card_container. rewrite filter_elem, map_app, concat_app.
  rewrite map_imap, concat_imap_nil by apply card_no_h1.
  unfold no_tracks.
  destruct (isReloading s), (bool_decide (length (tracks s) = 0%nat));
    reflexivity.
Qed.

(** The same queries on the whole wrap. *)

Lemma wrap_cards (s : S) :
  concat (map (by_class "card") (wrap s)) = imap card (tracks s).
Proof.
  unfold wrap. rewrite !map_app, !concat_app. cbn [map concat].
  rewrite container_cards, !app_nil_r.
  unfold error_line. destruct (error s); reflexivity.
Qed.

Lemma wrap_container (s : S) :
  concat (map (by_class "card-container") (wrap s)) = [card_container s].
Proof.
  unfold wrap. rewrite !map_app, !concat_app. cbn [map concat].
  rewrite container_is_container.
  unfold error_line. destruct (error s); reflexivity.
Qed.

Lemma wrap_select (s : S) :
  concat (map (by_tag "select") (wrap s)) = [limitSelect s].
Proof.
  unfold wrap. rewrite !map_app, !concat_app. cbn [map concat].
  rewrite container_no_select.
  unfold error_line. destruct (error s); reflexivity.
Qed.

Lemma wrap_no_login (s : S) :
  concat (map (by_class "login-button") (wrap s)) = [].
Proof.
  unfold wrap. rewrite !map_app, !concat_app. cbn [map concat].
  rewrite container_no_login.
  unfold error_line. destruct (error s); reflexivity.
Qed.

Lemma wrap_h1 (s : S) :
  concat (map (by_tag "h1") (wrap s)) = [greeting s].
Proof.
  unfold wrap. rewrite !map_app, !concat_app. cbn [map concat].
  rewrite container_no_h1.
  unfold error_line. destruct (error s); reflexivity.
Qed.

(** The message is a child of the container exactly when there is no
    track and nothing is reloading. *)
Lemma container_message (s : S) :
  existsb is_no_tracks_message (children_of (card_container s)) =
    bool_decide (length (tracks s) = 0%nat) && negb (isReloading s).
Proof.
  unfold card_container. cbn [children_of]. rewrite existsb_app.
  assert (forall (f : nat -> Track -> Node) l,
             (forall i x, is_no_tracks_message (f i x) = false) ->
             existsb is_no_tracks_message (imap f l) = false) as Hno.
  { intros f l. revert f. induction l as [|x l IH]; intros f Hf; [done|].
    cbn. rewrite Hf. apply IH. intros. apply Hf. }
  rewrite (Hno card) by apply card_is_no_message.
  unfold no_tracks.
  by destruct (bool_decide (length (tracks s) = 0%nat)), (isReloading s).
Qed.

(** What a card shows of its track. *)
Lemma card_binding i t :
  children_of (card i t) =
    [Elem "img" [("src", Str (album_image t)); ("alt", Str (name t))] [];
     Elem "h3" [] [Text (name t)];
     Elem "p" [] [Text (String.concat ", " (artists t))]].
Proof. reflexivity. Qed.

(** The dropdown holds [limit] and offers 1 to 10. *)
Lemma limitSelect_binding (s : S) :
  attr "value" (limitSelect s) = Some (Num (limit s)) /\
  omap (attr "value") (children_of (limitSelect s)) =
    map (fun z => Num (Js.Int z)) [1; 2; 3; 4; 5; 6; 7; 8; 9; 10]%Z /\
  texts (limitSelect s) =
    ["1"; "2"; "3"; "4"; "5"; "6"; "7"; "8"; "9"; "10"].
Proof. repeat split; vm_compute; reflexivity. Qed.

End View.
End ViewFacts.

Module RenderFacts.
Import Dom View Obs ViewFacts.

Lemma app_cards (s : AppJs.State) :
  cards (AppJs.App s) = imap card (tracks s).
Proof.
  unfold cards, by_class, AppJs.App. rewrite filter_elem.
  rewrite filter_cons_False by (by vm_compute). rewrite filter_nil.
  apply wrap_cards.
Qed.

Lemma app_container (s : AppJs.State) :
  by_class "card-container" (AppJs.App s) = [card_container s].
Proof.
  unfold by_class, AppJs.App. rewrite filter_elem.
  rewrite filter_cons_False by (by vm_compute). rewrite filter_nil.
  apply wrap_container.
Qed.

Lemma home_query (q : Node -> Prop) `{!forall x, Decision (q x)}
    (s : Routed.State) :
  ~ q (Routed.home s) ->
  filter q (descendants (Routed.home s)) =
    if Routed.isLoggedIn s
    then concat (map (fun c => filter q (descendants c)) (wrap s))
    else filter q (descendants Routed.login_container).
Proof.
  intros Hq. unfold Routed.home. rewrite filter_elem.
  rewrite filter_cons_False by done. rewrite filter_nil.
  destruct (Routed.isLoggedIn s); cbn [negb map concat app]; [done|].
  by rewrite app_nil_r.
Qed.

Lemma home_cards (s : Routed.State) :
  cards (Routed.home s) =
    if Routed.isLoggedIn s then imap card (tracks s) else [].
Proof.
  unfold cards, by_class. rewrite home_query by (by vm_compute).
  destruct (Routed.isLoggedIn s); [apply wrap_cards|reflexivity].
Qed.

Lemma home_container (s : Routed.State) :
  by_class "card-container" (Routed.home s) =
    if Routed.isLoggedIn s then [card_container s] else [].
Proof.
  unfold by_class. rewrite home_query by (by vm_compute).
  destruct (Routed.isLoggedIn s); [apply wrap_container|reflexivity].
Qed.

Lemma home_select (s : Routed.State) :
  by_tag "select" (Routed.home s) =
    if Routed.isLoggedIn s then [limitSelect s] else [].
Proof.
  unfold by_tag. rewrite home_query by (by vm_compute).
  destruct (Routed.isLoggedIn s); [apply wrap_select|reflexivity].
Qed.

Lemma home_login (s : Routed.State) :
  by_class "login-button" (Routed.home s) =
    if Routed.isLoggedIn s then [] else [Routed.login_button].
Proof.
  unfold by_class. rewrite home_query by (by vm_compute).
  destruct (Routed.isLoggedIn s); [apply wrap_no_login|reflexivity].
Qed.

Lemma home_h1 (s : Routed.State) :
  by_tag "h1" (Routed.home s) =
    if Routed.isLoggedIn s then [greeting s]
    else [Elem "h1" [] [Text "Welcome to Monthly Wrap"]].
Proof.
  unfold by_tag. rewrite home_query by (by vm_compute).
  destruct (Routed.isLoggedIn s); [apply wrap_h1|reflexivity].
Qed.

(** C3. On the home route of the routed revision: when [isLoggedIn] is
    false the page holds the login link and no [select], no card
    container and no card; when it is true the page holds the greeting
    with [displayName] and the [select] whose value is [limit] and whose
    options are 1 to 10, and no login link. *)
Theorem login_or_wrap (s : Routed.State) :
  by_class "login-button" (Routed.home s) =
    (if Routed.isLoggedIn s then [] else [Routed.login_button]) /\
  attr "href" Routed.login_button = Some (Str (backend +:+ "/login")) /\
  texts Routed.login_button = ["Login with Spotify"] /\
  by_tag "select" (Routed.home s) =
    (if Routed.isLoggedIn s then [limitSelect s] else []) /\
  by_class "card-container" (Routed.home s) =
    (if Routed.isLoggedIn s then [card_container s] else []) /\
  cards (Routed.home s) =
    (if Routed.isLoggedIn s then imap card (tracks s) else []) /\
  by_tag "h1" (Routed.home s) =
    (if Routed.isLoggedIn s then [greeting s]
     else [Elem "h1" [] [Text "Welcome to Monthly Wrap"]]) /\
  texts (greeting s) =
    ["Hello "; displayName s; ", here is your Monthly Wrap!"] /\
  attr "value" (limitSelect s) = Some (Num (limit s)) /\
  omap (attr "value") (children_of (limitSelect s)) =
    map (fun z => Num (Js.Int z)) [1; 2; 3; 4; 5; 6; 7; 8; 9; 10]%Z.
Proof.
  split; [apply home_login|]. split; [reflexivity|]. split; [reflexivity|].
  split; [apply home_select|]. split; [apply home_container|].
  split; [apply home_cards|]. split; [apply home_h1|].
  split; [reflexivity|]. split; apply limitSelect_binding.
Qed.

(** The wrap is the content of the page: always in frontend/src/App.js,
    when logged in in the routed revision. *)
Lemma app_children (s : AppJs.State) : children_of (AppJs.App s) = wrap s.
Proof. reflexivity. Qed.

Lemma home_children (s : Routed.State) :
  children_of (Routed.home s) =
    if Routed.isLoggedIn s then wrap s else [Routed.login_container].
Proof. unfold Routed.home. by destruct (Routed.isLoggedIn s). Qed.

Lemma shown_in (c : Node) (n : Node) :
  by_class "card-container" n = [c] ->
  no_tracks_shown n = existsb is_no_tracks_message (children_of c).
Proof. intros Hc. unfold no_tracks_shown. rewrite Hc. cbn. apply orb_false_r. Qed.

(** C8. Wherever the card container is rendered, that is always in
    frontend/src/App.js and when [isLoggedIn] is true in the routed
    revision, there are as many cards as [tracks] has elements, card
    number [i] showing the image, name and comma-joined artists of track
    number [i], and the message [No tracks found.] is a child of the
    container exactly when [tracks] is empty and [isReloading] is false.
    When [isLoggedIn] is false the routed revision renders neither cards
    nor the message. *)
Theorem cards_follow_tracks :
  (forall s : AppJs.State,
      cards (AppJs.App s) = imap card (tracks s) /\
      length (cards (AppJs.App s)) = length (tracks s) /\
      no_tracks_shown (AppJs.App s) =
        bool_decide (length (tracks s) = 0%nat) && negb (isReloading s)) /\
  (forall s : Routed.State,
      cards (Routed.home s) =
        (if Routed.isLoggedIn s then imap card (tracks s) else []) /\
      length (cards (Routed.home s)) =
        (if Routed.isLoggedIn s then length (tracks s) else 0%nat) /\
      no_tracks_shown (Routed.home s) =
        Routed.isLoggedIn s &&
        (bool_decide (length (tracks s) = 0%nat) && negb (isReloading s))) /\
  (forall i t,
      children_of (card i t) =
        [Elem "img" [("src", Str (album_image t)); ("alt", Str (name t))] [];
         Elem "h3" [] [Text (name t)];
         Elem "p" [] [Text (String.concat ", " (artists t))]]).
Proof.
  split; [|split].
  - intros s. rewrite app_cards. split; [done|]. split; [apply length_imap|].
    rewrite (shown_in (card_container s)) by apply app_container.
    apply container_message.
  - intros s. rewrite home_cards. split; [done|]. split.
    + destruct (Routed.isLoggedIn s); [apply length_imap|done].
    + destruct (Routed.isLoggedIn s) eqn:Hl.
      * rewrite (shown_in (card_container s)).
        -- apply container_message.
        -- by rewrite home_container, Hl.
      * unfold no_tracks_shown. by rewrite home_container, Hl.
  - apply card_binding.
Qed.

End RenderFacts.

(** ** The routed revision *)

Module RoutedFacts.
Import Wrap Obs Routed.

Lemma run_invariant (P : Config -> Prop) :
  (forall t e c c', P c -> Routed.step t e c = Some c' -> P c') ->
  forall tr c c', P c -> Routed.run tr c = Some c' -> P c'.
Proof.
  intros Hstep. induction tr as [|[t e] tr IH]; intros c c' HP Hrun; cbn in Hrun.
  - by inversion Hrun; subst.
  - destruct (Routed.step t e c) as [c1|] eqn:Hs; [|done]. cbn in Hrun.
    eapply IH; [|done]. by eapply Hstep.
Qed.

Lemma outside_step t acts (m m' : Machine (S := State)) :
  Wrap.step top_tracks_prefix t (Wrap.Outside acts) m = Some m' ->
  (now m <= t)%nat /\ m' = perform None t acts (cycles m) m.
Proof.
  unfold Wrap.step. case_decide; [|done]. intros [= <-]. done.
Qed.

Lemma no_cycle_no_turn t (e : Wrap.Event) (m : Machine (S := State)) :
  cycles m = [] ->
  match e with
  | Wrap.Timer _ | Wrap.UserInfo _ _ | Wrap.TopTracks _ _ => True
  | _ => False
  end ->
  Wrap.step top_tracks_prefix t e m = None.
Proof.
  intros Hc He. unfold Wrap.step. case_decide; [|done].
  destruct e; try done; by rewrite Hc, lookup_nil.
Qed.

Lemma step_invariant t e c c' :
  invariant c -> Routed.step t e c = Some c' -> invariant c'.
Proof.
  intros (Hc & Ht & Hr & He & Hw & Hp) Hs.
  destruct e; cbn in Hs;
    try (rewrite no_cycle_no_turn in Hs by done; done);
    destruct (probe c) eqn:Hprobe; try done;
    (destruct (Wrap.step _ _ _ (machine c)) as [m'|] eqn:Hm; [|done]);
    apply outside_step in Hm as [Hnow ->]; inversion Hs; subst c'; clear Hs;
    unfold invariant, probes in *; cbn [machine probe];
    unfold probe_settled, handleLimitChange; try destruct (probe_then r);
    hooks; rewrite filter_app, length_app, Hp;
    (repeat split; try done; [by apply Forall_app; split; [|repeat constructor]]).
Qed.

Lemma start_invariant : invariant start.
Proof. repeat split. constructor. Qed.

(** C2. In the routed revision nothing ever invokes [fetchWrapData]:
    whatever the component goes through (mount, the probe's answer, any
    number of changes of the dropdown) there is no invocation, no log
    entry made by one, [tracks] is still empty and [isReloading] still
    false. *)
Theorem fetchWrapData_is_never_invoked tr c :
  Routed.run tr start = Some c ->
  cycles (machine c) = [] /\
  Forall (fun e => who e = None) (log (machine c)) /\
  tracks (ui (machine c)) = [] /\
  isReloading (ui (machine c)) = false.
Proof.
  intros Hrun.
  destruct (run_invariant invariant step_invariant tr start c start_invariant Hrun)
    as (Hc & Ht & Hr & He & Hw & Hp).
  done.
Qed.

(** The routed revision asks for [/top-tracks?limit=N]. *)
Lemma top_tracks_path (l : Js.number) :
  path_of (Js.url (top_tracks_request top_tracks_prefix l)) =
    Some ("/top-tracks?limit=" +:+ Js.number_to_string l).
Proof. unfold path_of. apply (AppJsFacts.strip_prefix_app backend). Qed.

(** The probe's answer, once it is in flight. *)
Lemma probe_answer t r c :
  probe c = InFlight ->
  (now (machine c) <= t)%nat ->
  Routed.step t (ProbeResult r) c =
    Some (mkConfig (perform None t (probe_settled r)
                      (cycles (machine c)) (machine c)) Settled).
Proof.
  intros Hp Hnow. cbn. rewrite Hp. unfold Wrap.step.
  by rewrite decide_True.
Qed.

(** C4. The session probe of the routed revision.  The request, a GET of
    [/user-info] with credentials, goes out when the component mounts and
    never again.  Its answer never touches [error].  A 2xx answer with a
    JSON body sets [isLoggedIn] to true and [displayName] to the body's
    [display_name] when that is a non-empty string, to ["User"] when it is
    absent or empty.  Any other answer (a network failure, a status
    outside 200-299, a body that is not JSON) sets [isLoggedIn] to false
    and leaves [displayName] alone. *)
Theorem session_probe tr c :
  Routed.run tr start = Some c ->
  probes c = match probe c with NotSent => 0%nat | _ => 1%nat end /\
  probe_request = Js.mkRequest (backend +:+ "/user-info") "GET" "include" /\
  (forall t,
      probe c = NotSent -> (now (machine c) <= t)%nat ->
      exists c',
        Routed.step t Mount c = Some c' /\
        probe c' = InFlight /\
        log (machine c') =
          log (machine c) ++ [mkEntry t None (Fetch probe_request)]) /\
  (forall t,
      probe c <> NotSent -> Routed.step t Mount c = None) /\
  (forall t r,
      probe c = InFlight -> (now (machine c) <= t)%nat ->
      exists c',
        Routed.step t (ProbeResult r) c = Some c' /\
        probe c' = Settled /\
        error (ui (machine c')) = error (ui (machine c)) /\
        match r with
        | Js.Response status (Js.Json userData) =>
            if Js.ok status
            then isLoggedIn (ui (machine c')) = true /\
                 displayName (ui (machine c')) =
                   match display_name userData with
                   | Some s => if decide (s = "") then "User" else s
                   | None => "User"
                   end
            else isLoggedIn (ui (machine c')) = false /\
                 displayName (ui (machine c')) = displayName (ui (machine c))
        | Js.Response _ (Js.NotJson _) | Js.NetworkFailure _ =>
            isLoggedIn (ui (machine c')) = false /\
            displayName (ui (machine c')) = displayName (ui (machine c))
        end).
Proof.
  intros Hrun.
  destruct (run_invariant invariant step_invariant tr start c start_invariant Hrun)
    as (Hc & Ht & Hr & He & Hw & Hp).
  split; [done|]. split; [done|]. split; [|split].
  - intros t Hn Hnow. cbn. rewrite Hn. unfold Wrap.step.
    rewrite decide_True by done. cbn. eauto.
  - intros t Hn. cbn. by destruct (probe c).
  - intros t r Hi Hnow. rewrite probe_answer by done.
    eexists. split; [done|]. split; [done|].
    unfold probe_settled, probe_then.
    destruct r as [e|status [userData|e]]; [|destruct (Js.ok status)..];
      hooks; repeat split; try done.
    cbn. destruct (display_name userData) as [s|]; [|done].
    cbn. destruct (decide (s = "")) as [->|Hne]; [done|].
    by rewrite bool_decide_eq_false_2.
Qed.

(** A 2xx answer whose [display_name] is the empty string: the name is
    there, and [displayName] becomes ["User"] all the same. *)
Lemma empty_display_name_becomes_User :
  exists c,
    Routed.run
      [(0, Mount);
       (40, ProbeResult (Js.Response 200 (Js.Json (mkUserProfile (Some "")))))]%nat
      start = Some c /\
    isLoggedIn (ui (machine c)) = true /\
    displayName (ui (machine c)) = "User" /\
    Some (displayName (ui (machine c))) <> display_name (mkUserProfile (Some "")).
Proof. eexists. split; [reflexivity|]. repeat split. discriminate. Qed.

End RoutedFacts.

(** ** The OAuth callback *)

Module CallbackFacts.
Import CallbackHandler.

Lemma truthy_spec (a : option string) :
  Js.truthy a = true <-> exists s, a = Some s /\ s <> "".
Proof.
  destruct a as [s|]; cbn.
  - rewrite negb_true_iff, bool_decide_eq_false. split.
    + intros Hs. by exists s.
    + by intros (s' & [= <-] & Hs).
  - split; [done|]. by intros (s & ? & _).
Qed.

Lemma finished_by_navigating tr : forall c c',
  phase c <> Finished ->
  run tr c = Some c' ->
  phase c' = Finished ->
  last (log c') = Some (Navigate "/").
Proof.
  induction tr as [|e tr IH]; intros c c' Hc Hrun Hf; cbn in Hrun.
  - inversion Hrun; subst. done.
  - destruct (step e c) as [c1|] eqn:Hs; [|done]. cbn in Hrun.
    destruct (decide (phase c1 = Finished)) as [Hf1|Hn1].
    + destruct tr as [|e' tr]; cbn in Hrun.
      * inversion Hrun; subst c'. unfold step in Hs.
        destruct e as [search|r], (phase c); try done.
        -- unfold on_mount in Hs. destruct (Js.truthy _);
             inversion Hs; subst; cbn in *; [done|by rewrite last_snoc].
        -- inversion Hs; subst; cbn.
           destruct r as [?|? [?|?]]; cbn; by rewrite !last_app_cons.
      * unfold step in Hrun. rewrite Hf1 in Hrun. by destruct e'.
    + by eapply IH.
Qed.

(** C10. [CallbackHandler] sends its request, a GET of
    [/callback?code=<code>] with credentials, exactly when the first
    [code] parameter of the URL is a non-empty string; with no such
    parameter, or an empty one, it navigates home at once.  However the
    request ends (a body that parses, one that does not, a network
    failure) the handler then logs the outcome and navigates home; and
    whenever the handler has finished, the last thing it did was
    [navigate('/')]. *)
Theorem callback_handler_goes_home (search : Js.URLSearchParams) :
  (Js.truthy (Js.get "code" search) = true <->
     exists code, Js.get "code" search = Some code /\ code <> "") /\
  run [Mount search] start =
    Some (match Js.get "code" search with
          | Some code =>
              if decide (code = "") then mkConfig Finished [Navigate "/"]
              else mkConfig Requested
                     [Fetch (Js.mkRequest (backend +:+ "/callback?code=" +:+ code)
                               "GET" "include")]
          | None => mkConfig Finished [Navigate "/"]
          end) /\
  (forall code r,
      Js.get "code" search = Some code -> code <> "" ->
      exists said,
        run [Mount search; Result r] start =
          Some (mkConfig Finished
                  [Fetch (callback_request code); said; Navigate "/"]) /\
        said = match r with
               | Js.Response _ (Js.Json data) => ConsoleLog "Auth Success:" data
               | Js.Response _ (Js.NotJson e) | Js.NetworkFailure e =>
                   ConsoleError "Auth Error:" e
               end) /\
  (forall tr c,
      run (Mount search :: tr) start = Some c ->
      phase c = Finished ->
      last (log c) = Some (Navigate "/")).
Proof.
  split; [apply truthy_spec|]. split; [|split].
  - cbn. unfold on_mount. destruct (Js.get "code" search) as [code|]; [|done].
    cbn. by destruct (decide (code = "")) as [->|Hne];
      [|rewrite bool_decide_eq_false_2 by done].
  - intros code r Hcode Hne. cbn. unfold on_mount. rewrite Hcode. cbn.
    rewrite bool_decide_eq_false_2 by done. cbn.
    destruct r as [e|status [data|e]]; by eexists.
  - intros tr c Hrun Hf. by eapply (finished_by_navigating _ start).
Qed.

(** A URL whose [code] parameter is there but empty: no request goes out. *)
Lemma empty_code_sends_nothing :
  Js.get "code" [("code", "")] = Some "" /\
  run [Mount [("code", "")]] start = Some (mkConfig Finished [Navigate "/"]).
Proof. split; reflexivity. Qed.

End CallbackFacts.

(** ** More of the two components *)

Module JsFacts.







End JsFacts.

Module LoopFacts.
Import Wrap Obs Flow.

Lemma some_snoc p cs c : some p (cs ++ [c]) <-> some p cs \/ p c = true.
Proof.
  split.
  - intros (k & x & Hk & Hp). apply lookup_app_Some in Hk as [Hk|[_ Hk]].
    + left. by exists k, x.
    + right. apply list_lookup_singleton_Some in Hk as [_ <-]. done.
  - intros [(k & x & Hk & Hp)|Hp].
    + exists k, x. split; [|done]. by apply lookup_app_l_Some.
    + exists (length cs), c. split; [|done]. apply WrapFacts.lookup_tail.
Qed.

Lemma some_insert p cs k c c' :
  cs !! k = Some c ->
  some p (<[k := c']> cs) <->
    p c' = true \/ exists j x, j <> k /\ cs !! j = Some x /\ p x = true.
Proof.
  intros Hk. split.
  - intros (j & x & Hj & Hp). destruct (decide (j = k)) as [->|Hne].
    + rewrite list_lookup_insert_eq in Hj by (by eapply lookup_lt_Some).
      left. congruence.
    + rewrite list_lookup_insert_ne in Hj by done. right. by exists j, x.
  - intros [Hp|(j & x & Hne & Hj & Hp)].
    + exists k, c'. split; [|done].
      apply list_lookup_insert_eq. by eapply lookup_lt_Some.
    + exists j, x. split; [|done]. by rewrite list_lookup_insert_ne.
Qed.

Lemma some_split p cs k c :
  cs !! k = Some c ->
  some p cs <->
    p c = true \/ exists j x, j <> k /\ cs !! j = Some x /\ p x = true.
Proof.
  intros Hk. rewrite <- (some_insert p cs k c c Hk).
  by rewrite list_insert_id.
Qed.

(** Replacing a state by one that [p] judges the same changes nothing. *)
Lemma some_insert_same p cs k c c' :
  cs !! k = Some c -> p c' = p c -> some p (<[k := c']> cs) <-> some p cs.
Proof.
  intros Hk Hp. rewrite (some_insert p cs k c c' Hk), (some_split p cs k c Hk).
  by rewrite Hp.
Qed.

Lemma some_insert_here p cs k c c' :
  cs !! k = Some c -> p c' = true -> some p (<[k := c']> cs).
Proof. intros Hk Hp. apply (some_insert p cs k c c' Hk). by left. Qed.

Section Loop.
Context {S : Type} `{Hooks S}.
Variable top_tracks_prefix : string.

Lemma explained_step t e (m m' : Machine (S := S)) :
  from_component e = true ->
  explained m ->
  Wrap.step top_tracks_prefix t e m = Some m' ->
  explained m'.
Proof.
  intros He (Hr & Herr & Ht) Hs. unfold explained.
  step_inv Hs;
    try (destruct acts as [|[] [|]]; try discriminate He);
    hooks; rewrite ?some_snoc; split_and!;
    repeat match goal with
    | Hk : cycles _ !! ?k = Some ?c
      |- context [some ?p (<[?k := ?c']> _)] =>
        rewrite (some_insert_same p _ k c c' Hk eq_refl)
    end;
    try done; try tauto.
  all: try (split; [intros _|done]).
  all: try intros _.
  all: try by eapply some_insert_here.
  rewrite Herr. cbn. split; [tauto|by intros [?|?]].
Qed.

(** Turns other than a call of [fetchWrapData]. *)
Lemma served_turn W t e (m m' : Machine (S := S)) :
  match e with Call _ => False | _ => True end ->
  from_component e = true ->
  served top_tracks_prefix W m ->
  Wrap.step top_tracks_prefix t e m = Some m' ->
  served top_tracks_prefix W m'.
Proof.
  intros Hc He (Hlen & Hout & Hopen & Hreq) Hs. unfold served.
  step_inv Hs; try done;
    try (destruct acts as [|[] [|]]; try discriminate He);
    hooks; rewrite ?length_insert; (split; [done|]); split_and!;
    try done.
  all: try (intros j due' l' Hj; destruct (decide (j = k)) as [->|Hne];
            [rewrite list_lookup_insert_eq in Hj
               by (by eapply lookup_lt_Some); discriminate Hj
            |rewrite list_lookup_insert_ne in Hj by done; by eauto]).
  all: try (intros j t' l' Hw; apply elem_of_app; left; by eauto).
  all: intros x rq [Hin|Hin]%elem_of_app Ha; [by eauto|];
    repeat (apply elem_of_cons in Hin as [->|Hin]);
    try (by apply elem_of_nil in Hin);
    cbn in Ha; try discriminate Ha; injection Ha as <-;
    first [by left|right].
  destruct (Hout _ _ _ ltac:(eassumption)) as [t0 Hw]. by exists k, t0, limit0.
Qed.

(** A call of [fetchWrapData]. *)
Lemma served_call W t l (m m' : Machine (S := S)) :
  served top_tracks_prefix W m ->
  Wrap.step top_tracks_prefix t (Call l) m = Some m' ->
  served top_tracks_prefix (W ++ [(t, l)]) m'.
Proof.
  intros (Hlen & Hout & Hopen & Hreq) Hs. unfold served.
  step_inv Hs. hooks. rewrite !length_app. split_and!.
  - cbn. lia.
  - intros j due' l' Hj. apply lookup_app_Some in Hj as [Hj|[Hge Hj]].
    + destruct (Hout _ _ _ Hj) as [t0 Hw]. exists t0.
      by apply lookup_app_l_Some.
    + apply list_lookup_singleton_Some in Hj as [Hj [= <- <-]].
      exists t. rewrite lookup_app_r by lia.
      by replace (j - length W)%nat with 0%nat by lia.
  - intros j t' l' Hw. apply elem_of_app.
    apply lookup_app_Some in Hw as [Hw|[Hge Hw]]; [left; by eauto|right].
    apply list_lookup_singleton_Some in Hw as [Hj [= <- <-]].
    replace j with (length (cycles m)) by lia. apply elem_of_cons. by left.
  - intros x r [Hin|Hin]%elem_of_app Ha.
    + destruct (Hreq _ _ Hin Ha) as [->|(j & t0 & lj & Hwho & Hw & ->)];
        [by left|right].
      exists j, t0, lj. split; [done|]. split; [|done].
      by apply lookup_app_l_Some.
    + repeat (apply elem_of_cons in Hin as [->|Hin]);
        try (by apply elem_of_nil in Hin); discriminate Ha.
Qed.

(** Only a handler outside [fetchWrapData] writes [limit]. *)
Lemma limit_kept t e (m m' : Machine (S := S)) :
  match e with Outside _ => False | _ => True end ->
  Wrap.step top_tracks_prefix t e m = Some m' ->
  limit (ui m') = limit (ui m).
Proof. intros He Hs. step_inv Hs; try done; by hooks. Qed.

Lemma arrived_mono T N E T' N' E' (m : Machine (S := S)) :
  T ⊆ T' -> N ⊆ N' -> E ⊆ E' -> arrived T N E m -> arrived T' N' E' m.
Proof.
  intros HT HN HE (H1 & H2 & H3 & H4). split_and!.
  - destruct H1; [by left|right; by apply HT].
  - destruct H2; [by left|right; by apply HN].
  - intros e He. by apply HE, H3.
  - intros k c Hk. specialize (H4 k c Hk). destruct c; try done.
    + destruct H4 as [Hu Hd]. split; intros; [by eapply HN, Hu|by eapply HT, Hd].
    + by apply HT.
Qed.

Lemma arrived_step T N E t e (m m' : Machine (S := S)) :
  from_component e = true ->
  (forall k r u, e = UserInfo k r -> user_info_then r = Js.Fulfilled u ->
                 Js.or_else (display_name u) "User" ∈ N) ->
  (forall k r err, e = UserInfo k r -> user_info_then r = Js.Rejected err ->
                   err ∈ E) ->
  (forall k r d, e = TopTracks k r -> top_tracks_then r = Js.Fulfilled d ->
                 d ∈ T) ->
  (forall k r err, e = TopTracks k r -> top_tracks_then r = Js.Rejected err ->
                   err ∈ E) ->
  arrived T N E m ->
  Wrap.step top_tracks_prefix t e m = Some m' ->
  arrived T N E m'.
Proof.
  intros He Hun Hue Htd Hte (H1 & H2 & H3 & H4) Hs. unfold arrived.
  step_inv Hs;
    try (destruct acts as [|[] [|]]; try discriminate He);
    hooks; split_and!; try done.
  all: try (intros j c Hj;
            apply lookup_app_Some in Hj as [Hj|[_ Hj]];
            [by eapply H4
            |by apply list_lookup_singleton_Some in Hj as [_ <-]]).
  all: try (intros j c Hj;
            apply list_lookup_insert_Some in Hj as [(-> & <- & Hlt)|(Hne & Hj)];
            [|by eapply H4]).
  all: try match goal with
           | Hk : cycles _ !! _ = Some _ |- _ =>
               pose proof (H4 _ _ Hk) as Hold; cbn in Hold
           end.
  all: try done.
  all: try (intros ? [= <-]).
  all: try (split; intros ?; [intros [= <-]|intros [= <-]]).
  all: try (right; by eauto).
  all: try by eauto.
  all: try (by destruct Hold; eauto).
Qed.

(** X6. The 100 ms callbacks of two invocations: whichever runs later
    decides what [tracks] holds, whether or not it belongs to the
    invocation that was made later. *)
Theorem later_commit_wins (m : Machine (S := S)) k1 k2 due1 due2 d1 d2 t1 t2 :
  k1 <> k2 ->
  cycles m !! k1 = Some (FadingIn due1 d1) ->
  cycles m !! k2 = Some (FadingIn due2 d2) ->
  (now m <= t1)%nat -> (due1 <= t1)%nat ->
  (t1 <= t2)%nat -> (due2 <= t2)%nat ->
  exists m',
    Wrap.run top_tracks_prefix [(t1, Timer k1); (t2, Timer k2)] m = Some m' /\
    tracks (ui m') = d2 /\
    isReloading (ui m') = false /\
    cycles m' !! k1 = Some Committed /\
    cycles m' !! k2 = Some Committed.
Proof.
  intros Hne H1 H2 Hnow Hd1 Ht Hd2.
  rewrite (WrapFacts.run_cons top_tracks_prefix _ _ _ _ _
             (WrapFacts.step_timer_100 top_tracks_prefix k1 due1 d1 t1 m
                H1 Hnow Hd1)).
  assert (cycles (commit k1 d1 t1 m) !! k2 = Some (FadingIn due2 d2)) as H2'.
  { unfold commit, perform. cbn [cycles].
    by rewrite list_lookup_insert_ne. }
  rewrite (WrapFacts.run_cons top_tracks_prefix _ _ _ _ _
             (WrapFacts.step_timer_100 top_tracks_prefix k2 due2 d2 t2 _
                H2' Ht Hd2)).
  eexists. split; [reflexivity|]. hooks. split_and!; try done.
  - rewrite list_lookup_insert_ne by done.
    apply list_lookup_insert_eq. by eapply lookup_lt_Some.
  - apply list_lookup_insert_eq. rewrite length_insert.
    by eapply lookup_lt_Some.
Qed.

End Loop.
End LoopFacts.

Module PageFacts.
Import Wrap Obs AppJs Flow.

Lemma page_run_snoc tr t e : forall c,
  AppJs.run (tr ++ [(t, e)]) c = c' ← AppJs.run tr c; AppJs.step t e c'.
Proof.
  induction tr as [|[t' e'] tr IH]; intros c; cbn.
  - by destruct (AppJs.step t e c).
  - destruct (AppJs.step t' e' c); cbn; [apply IH|done].
Qed.

(** Induction on what the component has gone through since it was
    created. *)
Lemma reachable_ind (P : list (nat * Event) -> Config -> Prop) :
  P [] start ->
  (forall tr t e c c',
      AppJs.run tr start = Some c -> P tr c ->
      AppJs.step t e c = Some c' -> P (tr ++ [(t, e)]) c') ->
  forall tr c, AppJs.run tr start = Some c -> P tr c.
Proof.
  intros H0 Hs tr. induction tr as [|[t e] tr IH] using rev_ind; intros c Hr.
  - cbn in Hr. by inversion Hr; subst.
  - rewrite page_run_snoc in Hr. destruct (AppJs.run tr start) as [c0|] eqn:H1; [|done].
    cbn in Hr. eapply Hs; eauto.
Qed.

(** The turns of the loop behind a turn of the component. *)
Lemma step_cases t e (c c' : Config) :
  AppJs.step t e c = Some c' ->
  match e with
  | Mount =>
      mounted c = false /\ mounted c' = true /\
      Wrap.step top_tracks_prefix t (Call (limit (ui (machine c)))) (machine c)
        = Some (machine c')
  | Change value =>
      mounted c = true /\ mounted c' = true /\
      exists m1,
        Wrap.step top_tracks_prefix t
          (Outside [SetLimit (Js.parseInt value)]) (machine c) = Some m1 /\
        if decide (Js.parseInt value = limit (ui (machine c)))
        then machine c' = m1
        else Wrap.step top_tracks_prefix t (Call (Js.parseInt value)) m1
               = Some (machine c')
  | Timer k =>
      mounted c' = mounted c /\
      Wrap.step top_tracks_prefix t (Wrap.Timer k) (machine c)
        = Some (machine c')
  | UserInfo k r =>
      mounted c' = mounted c /\
      Wrap.step top_tracks_prefix t (Wrap.UserInfo k r) (machine c)
        = Some (machine c')
  | TopTracks k r =>
      mounted c' = mounted c /\
      Wrap.step top_tracks_prefix t (Wrap.TopTracks k r) (machine c)
        = Some (machine c')
  end.
Proof.
  intros Hs. destruct e; cbn in Hs.
  - destruct (mounted c); [done|]. unfold effect in Hs.
    destruct (Wrap.step _ _ _ (machine c)) as [m'|] eqn:Hw; [|done].
    by inversion Hs; subst.
  - destruct (mounted c); [|done]. unfold handleLimitChange in Hs.
    destruct (Wrap.step _ _ (Outside _) (machine c)) as [m1|] eqn:Hw; [|done].
    cbn in Hs. split; [done|].
    destruct (decide (Js.parseInt value = _)) as [Hl|Hl].
    + inversion Hs; subst. split; [done|]. by exists m1.
    + unfold effect in Hs.
      destruct (Wrap.step _ _ (Call _) m1) as [m2|] eqn:Hw2; [|done].
      inversion Hs; subst. split; [done|]. exists m1.
      split; [done|]. cbn. rewrite <- Hw2. f_equal. f_equal.
      step_inv Hw. hooks. done.
  - destruct (Wrap.step _ _ _ (machine c)) as [m'|] eqn:Hw; [|done].
    by inversion Hs; subst.
  - destruct (Wrap.step _ _ _ (machine c)) as [m'|] eqn:Hw; [|done].
    by inversion Hs; subst.
  - destruct (Wrap.step _ _ _ (machine c)) as [m'|] eqn:Hw; [|done].
    by inversion Hs; subst.
Qed.

(** What every turn of the loop keeps, every turn of the component keeps. *)
Lemma step_lifted (P : Machine (S := State) -> Prop) t e (c c' : Config) :
  (forall t we m m',
      from_component we = true -> P m ->
      Wrap.step top_tracks_prefix t we m = Some m' -> P m') ->
  P (machine c) -> AppJs.step t e c = Some c' -> P (machine c').
Proof.
  intros Hk HP Hs. apply step_cases in Hs. destruct e.
  - destruct Hs as (_ & _ & Hs). by eapply Hk in Hs.
  - destruct Hs as (_ & _ & m1 & H1 & H2).
    eapply Hk in H1; [|done|done]. case_decide; [by subst|].
    by eapply Hk in H2.
  - destruct Hs as (_ & Hs). by eapply Hk in Hs.
  - destruct Hs as (_ & Hs). by eapply Hk in Hs.
  - destruct Hs as (_ & Hs). by eapply Hk in Hs.
Qed.

Lemma run_lifted (P : Machine (S := State) -> Prop) :
  (forall t we m m',
      from_component we = true -> P m ->
      Wrap.step top_tracks_prefix t we m = Some m' -> P m') ->
  forall tr (c c' : Config),
    P (machine c) -> AppJs.run tr c = Some c' -> P (machine c').
Proof.
  intros Hk. induction tr as [|[t e] tr IH]; intros c c' HP Hr; cbn in Hr.
  - by inversion Hr; subst.
  - destruct (AppJs.step t e c) as [c1|] eqn:Hs; [|done]. cbn in Hr.
    eapply IH; [|done]. by eapply step_lifted.
Qed.

Lemma limit_set t v (m m' : Machine (S := State)) :
  Wrap.step top_tracks_prefix t (Outside [SetLimit v]) m = Some m' ->
  limit (ui m') = v.
Proof. intros Hs. step_inv Hs. by hooks. Qed.



Lemma served_reachable tr (c : Config) :
  AppJs.run tr start = Some c ->
  (forall x, wanted (Js.Int 5) (tr ++ x) =
             wanted (Js.Int 5) tr ++ wanted (limit (ui (machine c))) x) /\
  served top_tracks_prefix (wanted (Js.Int 5) tr) (machine c).
Proof.
  revert tr c. apply reachable_ind.
  - split; [done|]. split; [done|]. split_and!.
    + intros k due l Hk. by destruct k.
    + intros k t l Hk. by destruct k.
    + intros e r He. by apply elem_of_nil in He.
  - intros tr t e c c' Hr [Hw Hserved] Hs. apply step_cases in Hs.
    assert (forall x, wanted (Js.Int 5) ((tr ++ [(t, e)]) ++ x) =
                      wanted (Js.Int 5) tr ++
                      wanted (limit (ui (machine c))) ((t, e) :: x)) as Hx.
    { intros x. by rewrite <- app_assoc, Hw. }
    pose proof (Hx []) as H0. rewrite app_nil_r in H0.
    destruct e.
    + destruct Hs as (_ & _ & Hs).
      assert (limit (ui (machine c')) = limit (ui (machine c))) as Hl
        by (by eapply LoopFacts.limit_kept in Hs).
      split.
      * intros x. rewrite Hx, H0. cbn [wanted]. rewrite Hl.
        by rewrite <- app_assoc.
      * rewrite H0. cbn [wanted]. by eapply LoopFacts.served_call.
    + destruct Hs as (_ & _ & m1 & H1 & H2).
      pose proof (limit_set _ _ _ _ H1) as Hl1.
      eapply LoopFacts.served_turn in H1; [|done|done|exact Hserved].
      destruct (decide (Js.parseInt value = _)) as [Heq|Hne].
      * subst m1. split.
        -- intros x. rewrite Hx, H0. cbn [wanted].
           rewrite decide_True by done. by rewrite Hl1, !app_nil_r.
        -- rewrite H0. cbn [wanted]. rewrite decide_True by done.
           by rewrite !app_nil_r.
      * assert (limit (ui (machine c')) = limit (ui m1)) as Hl
          by (by eapply LoopFacts.limit_kept in H2).
        split.
        -- intros x. rewrite Hx, H0. cbn [wanted].
           rewrite decide_False by done. rewrite Hl, Hl1.
           by rewrite app_nil_r, <- app_assoc.
        -- rewrite H0. cbn [wanted]. rewrite decide_False by done.
           rewrite app_nil_r. by eapply LoopFacts.served_call.
    + destruct Hs as (_ & Hs).
      assert (limit (ui (machine c')) = limit (ui (machine c))) as Hl
        by (by eapply LoopFacts.limit_kept in Hs).
      split.
      * intros x. rewrite Hx, H0. cbn [wanted]. by rewrite Hl, app_nil_r.
      * rewrite H0. cbn [wanted]. rewrite app_nil_r.
        by eapply LoopFacts.served_turn in Hs.
    + destruct Hs as (_ & Hs).
      assert (limit (ui (machine c')) = limit (ui (machine c))) as Hl
        by (by eapply LoopFacts.limit_kept in Hs).
      split.
      * intros x. rewrite Hx, H0. cbn [wanted]. by rewrite Hl, app_nil_r.
      * rewrite H0. cbn [wanted]. rewrite app_nil_r.
        by eapply LoopFacts.served_turn in Hs.
    + destruct Hs as (_ & Hs).
      assert (limit (ui (machine c')) = limit (ui (machine c))) as Hl
        by (by eapply LoopFacts.limit_kept in Hs).
      split.
      * intros x. rewrite Hx, H0. cbn [wanted]. by rewrite Hl, app_nil_r.
      * rewrite H0. cbn [wanted]. rewrite app_nil_r.
        by eapply LoopFacts.served_turn in Hs.
Qed.

(** X3. frontend/src/App.js invokes [fetchWrapData] once when it mounts
    and once for every change of the dropdown that alters [limit], and at
    no other turn; and every top-tracks request asks for the limit its
    invocation was made for. *)
Theorem effect_follows_limit tr (c : Config) :
  AppJs.run tr start = Some c ->
  length (cycles (machine c)) = length (wanted (Js.Int 5) tr) /\
  (forall k t l,
      wanted (Js.Int 5) tr !! k = Some (t, l) ->
      mkEntry t (Some k) (SetIsReloading true) ∈ log (machine c)) /\
  (forall e r,
      e ∈ log (machine c) -> act e = Fetch r ->
      r = user_info_request \/
      exists k t l,
        who e = Some k /\ wanted (Js.Int 5) tr !! k = Some (t, l) /\
        r = top_tracks_request top_tracks_prefix l).
Proof.
  intros Hr. destruct (served_reachable tr c Hr) as [_ (H1 & _ & H3 & H4)].
  done.
Qed.

Lemma received_snoc {A} (f : Event -> option A) tr t e :
  received f (tr ++ [(t, e)]) = received f tr ++ received f [(t, e)].
Proof. apply omap_app. Qed.

Lemma arrived_turn T N E t e (c c' : Config) :
  AppJs.step t e c = Some c' ->
  arrived T N E (machine c) ->
  arrived (T ++ received tracks_of [(t, e)])
          (N ++ received name_of [(t, e)])
          (E ++ received error_of [(t, e)]) (machine c').
Proof.
  intros Hs Ha.
  eapply (LoopFacts.arrived_mono _ _ _
            (T ++ received tracks_of [(t, e)])
            (N ++ received name_of [(t, e)])
            (E ++ received error_of [(t, e)])) in Ha;
    try (intros x Hx; apply elem_of_app; by left).
  apply step_cases in Hs. destruct e.
  - destruct Hs as (_ & _ & Hs).
    eapply LoopFacts.arrived_step in Hs; try done.
  - destruct Hs as (_ & _ & m1 & H1 & H2).
    eapply LoopFacts.arrived_step in H1; try done.
    destruct (decide (Js.parseInt value = _)); [by subst|].
    eapply LoopFacts.arrived_step in H2; try done.
  - destruct Hs as (_ & Hs).
    eapply LoopFacts.arrived_step in Hs; try done.
  - destruct Hs as (_ & Hs).
    eapply LoopFacts.arrived_step in Hs; try done;
      intros ? ? ? [= <- <-] Hf; apply elem_of_app; right;
      unfold received; cbn -[user_info_then]; rewrite Hf;
      by apply list_elem_of_singleton.
  - destruct Hs as (_ & Hs).
    eapply LoopFacts.arrived_step in Hs; try done;
      intros ? ? ? [= <- <-] Hf; apply elem_of_app; right;
      unfold received; cbn -[top_tracks_then]; rewrite Hf;
      by apply list_elem_of_singleton.
Qed.

(** X4. frontend/src/App.js never shows what the backend has not sent:
    [tracks] is empty or the body of a fulfilled top-tracks request of the
    run, [displayName] is empty or the name made from the body of a
    fulfilled user-info request of the run, and [error] is unset or the
    error a request of the run was rejected with. *)
Theorem nothing_shown_but_what_arrived tr (c : Config) :
  AppJs.run tr start = Some c ->
  (tracks (ui (machine c)) = [] \/
   tracks (ui (machine c)) ∈ received tracks_of tr) /\
  (displayName (ui (machine c)) = "" \/
   displayName (ui (machine c)) ∈ received name_of tr) /\
  (forall e, error (ui (machine c)) = Some e -> e ∈ received error_of tr).
Proof.
  intros Hr.
  assert (arrived (received tracks_of tr) (received name_of tr)
            (received error_of tr) (machine c)) as (H1 & H2 & H3 & _);
    [|done].
  revert tr c Hr. apply reachable_ind.
  - split_and!; [by left|by left|done|]. intros k c Hk. by destruct k.
  - intros tr t e c c' _ Ha Hs. rewrite !received_snoc.
    by eapply arrived_turn.
Qed.

Lemma option_values_eq :
  option_values = ["1"; "2"; "3"; "4"; "5"; "6"; "7"; "8"; "9"; "10"].
Proof. vm_compute. reflexivity. Qed.

Lemma option_in_range value :
  value ∈ option_values -> in_range (Js.parseInt value) = true.
Proof.
  rewrite option_values_eq. intros Hv.
  repeat (apply elem_of_cons in Hv as [->|Hv]; [by vm_compute|]).
  by apply elem_of_nil in Hv.
Qed.

Lemma wanted_in_range tr : forall l,
  in_range l = true ->
  Forall (fun te => from_dropdown (snd te) = true) tr ->
  Forall (fun tl => in_range (snd tl) = true) (wanted l tr).
Proof.
  induction tr as [|[t e] tr IH]; intros l Hl Htr; [constructor|].
  apply Forall_cons in Htr as [He Htr]. destruct e; cbn [wanted]; auto.
  cbn in He. apply bool_decide_eq_true in He. apply option_in_range in He.
  apply Forall_app. split; [|by apply IH].
  case_decide; by repeat constructor.
Qed.

Lemma limit_in_range tr : forall (c c' : Config),
  in_range (limit (ui (machine c))) = true ->
  Forall (fun te => from_dropdown (snd te) = true) tr ->
  AppJs.run tr c = Some c' ->
  in_range (limit (ui (machine c'))) = true.
Proof.
  induction tr as [|[t e] tr IH]; intros c c' Hl Htr Hr; cbn in Hr.
  - by inversion Hr; subst.
  - destruct (AppJs.step t e c) as [c1|] eqn:Hs; [|done]. cbn in Hr.
    apply Forall_cons in Htr as [He Htr]. eapply IH; [|done|done].
    apply step_cases in Hs. destruct e.
    + destruct Hs as (_ & _ & Hs).
      assert (limit (ui (machine c1)) = limit (ui (machine c))) as ->
        by (by eapply LoopFacts.limit_kept in Hs).
      done.
    + destruct Hs as (_ & _ & m1 & H1 & H2).
      cbn in He. apply bool_decide_eq_true in He. apply option_in_range in He.
      assert (limit (ui m1) = Js.parseInt value) as Hl1
        by (by apply limit_set in H1).
      destruct (decide (Js.parseInt value = _)); [by subst; rewrite Hl1|].
      assert (limit (ui (machine c1)) = limit (ui m1)) as ->
        by (by eapply LoopFacts.limit_kept in H2).
      by rewrite Hl1.
    + destruct Hs as (_ & Hs).
      assert (limit (ui (machine c1)) = limit (ui (machine c))) as ->
        by (by eapply LoopFacts.limit_kept in Hs).
      done.
    + destruct Hs as (_ & Hs).
      assert (limit (ui (machine c1)) = limit (ui (machine c))) as ->
        by (by eapply LoopFacts.limit_kept in Hs).
      done.
    + destruct Hs as (_ & Hs).
      assert (limit (ui (machine c1)) = limit (ui (machine c))) as ->
        by (by eapply LoopFacts.limit_kept in Hs).
      done.
Qed.

(** X2. As long as every change comes from the dropdown of
    frontend/src/App.js, [limit] is an integer from 1 to 10, and every
    request the component has sent is the user-info request or a
    top-tracks request for a limit from 1 to 10. *)
Theorem limit_stays_in_range tr (c : Config) :
  AppJs.run tr start = Some c ->
  Forall (fun te => from_dropdown (snd te) = true) tr ->
  in_range (limit (ui (machine c))) = true /\
  (forall e r,
      e ∈ log (machine c) -> act e = Fetch r ->
      r = user_info_request \/
      exists l, in_range l = true /\
                r = top_tracks_request top_tracks_prefix l).
Proof.
  intros Hr Htr. split; [by eapply (limit_in_range tr start)|].
  intros e r He Ha.
  destruct (served_reachable tr c Hr) as [_ (_ & _ & _ & Hreq)].
  destruct (Hreq e r He Ha) as [->|(k & t & l & _ & Hw & ->)]; [by left|right].
  exists l. split; [|done].
  pose proof (wanted_in_range tr (Js.Int 5) eq_refl Htr) as Hall.
  exact (Forall_lookup_1 _ _ _ _ Hall Hw).
Qed.

(** X5. In frontend/src/App.js the hooks are explained by the
    invocations of [fetchWrapData]: while [isReloading] is true some
    invocation has not completed; [error] is set exactly when some
    invocation has been caught; and [tracks] is not empty only when some
    invocation has committed. *)
Theorem hooks_are_explained tr (c : Config) :
  AppJs.run tr start = Some c ->
  (isReloading (ui (machine c)) = true ->
   exists k cy, cycles (machine c) !! k = Some cy /\ completed cy = false) /\
  (is_Some (error (ui (machine c))) <->
   exists k a b, cycles (machine c) !! k = Some (Caught a b)) /\
  (tracks (ui (machine c)) <> [] ->
   exists k, cycles (machine c) !! k = Some Committed).
Proof.
  intros Hr.
  assert (explained (machine c)) as (H1 & H2 & H3).
  { eapply (run_lifted explained); [|shelve|exact Hr].
    intros. by eapply LoopFacts.explained_step. }
  split; [|split].
  - intros Hi. destruct (H1 Hi) as (k & cy & Hk & Hc). exists k, cy.
    split; [done|]. by apply negb_true_iff.
  - rewrite H2. split.
    + intros (k & [] & Hk & Hc); try done. eauto.
    + intros (k & a & b & Hk). by exists k, (Caught a b).
  - intros Ht. destruct (H3 Ht) as (k & [] & Hk & Hc); try done. eauto.
  Unshelve.
  split; [done|]. split; [|done]. split.
  + by intros [? ?].
  + by intros (k & cy & Hk & _).
Qed.

End PageFacts.


Module ClassFacts.
Import Dom View Obs ViewFacts.

Section View.
Context {S : Type} `{Hooks S}.

Lemma card_no_fade i t : by_class "cards-reloading" (card i t) = [].
Proof. reflexivity. Qed.

Lemma container_classes (s : S) :
  class_list (card_container s) =
    "card-container" :: if isReloading s then ["cards-reloading"] else [].
Proof. unfold card_container. by destruct (isReloading s). Qed.

Lemma container_fade (s : S) :
  by_class "cards-reloading" (card_container s) =
    if isReloading s then [card_container s] else [].
Proof.
  unfold by_class, card_container. rewrite filter_elem, map_app, concat_app.
  rewrite map_imap, concat_imap_nil by apply card_no_fade.
  unfold no_tracks.
  destruct (isReloading s), (bool_decide (length (tracks s) = 0%nat));
    reflexivity.
Qed.

Lemma wrap_fade (s : S) :
  concat (map (by_class "cards-reloading") (wrap s)) =
    if isReloading s then [card_container s] else [].
Proof.
  unfold wrap. rewrite !map_app, !concat_app. cbn [map concat].
  rewrite container_fade.
  unfold error_line. destruct (error s), (isReloading s); reflexivity.
Qed.

End View.

(** X7. The card container carries the class [cards-reloading] exactly
    while [isReloading] is true, next to [card-container], which it always
    carries; and nothing else on the page carries it. *)
Theorem fade_class_follows_isReloading :
  (forall s : AppJs.State,
      class_list (card_container s) =
        "card-container" :: (if isReloading s then ["cards-reloading"] else []) /\
      by_class "cards-reloading" (AppJs.App s) =
        if isReloading s then [card_container s] else []) /\
  (forall s : Routed.State,
      class_list (card_container s) =
        "card-container" :: (if isReloading s then ["cards-reloading"] else []) /\
      by_class "cards-reloading" (Routed.home s) =
        if Routed.isLoggedIn s && isReloading s then [card_container s]
        else []).
Proof.
  split; intros s; (split; [apply container_classes|]).
  - unfold by_class, AppJs.App. rewrite filter_elem.
    rewrite filter_cons_False by (by vm_compute). rewrite filter_nil.
    apply wrap_fade.
  - unfold by_class. rewrite RenderFacts.home_query by (by vm_compute).
    destruct (Routed.isLoggedIn s); [apply wrap_fade|reflexivity].
Qed.

End ClassFacts.

Module CallbackRuns.
Import CallbackHandler Obs Flow.

(** Everything a mounted [CallbackHandler] can go through. *)
Lemma callback_runs tr c :
  run tr start = Some c ->
  tr = [] \/
  (exists search, tr = [Mount search]) \/
  (exists search r,
      tr = [Mount search; Result r] /\
      Js.truthy (Js.get "code" search) = true).
Proof.
  intros Hr. destruct tr as [|[search|r] tr]; [by left| |done].
  right. cbn in Hr. unfold on_mount in Hr.
  destruct (Js.truthy (Js.get "code" search)) eqn:Hcode; cbn in Hr.
  - destruct tr as [|[search'|r] tr]; [left; by eexists|done|].
    destruct tr as [|[search'|r'] tr]; [|done|done].
    right. by eexists _, _.
  - destruct tr as [|[search'|r] tr]; [left; by eexists|done|done].
Qed.

(** X8. Whatever it goes through, [CallbackHandler] sends at most one
    request, navigates at most once and only to [/], has navigated
    exactly once when it has finished, and calls no state setter; once
    it has finished nothing more happens. *)
Theorem callback_navigates_once tr c :
  run tr start = Some c ->
  (length (filter (fun a => is_fetch a = true) (log c)) <= 1)%nat /\
  length (filter (fun a => is_navigate a = true) (log c)) =
    (if decide (phase c = Finished) then 1 else 0)%nat /\
  (forall to, Navigate to ∈ log c -> to = "/") /\
  (forall a, a ∈ log c -> writes a = None) /\
  (phase c = Finished -> forall e, step e c = None).
Proof.
  intros Hr.
  assert (c = mkConfig Unmounted [] \/
          (exists code, c = mkConfig Requested [Fetch (callback_request code)]) \/
          c = mkConfig Finished [Navigate "/"] \/
          (exists code said,
              c = mkConfig Finished
                    [Fetch (callback_request code); said; Navigate "/"] /\
              writes said = None /\ is_fetch said = false /\
              is_navigate said = false)) as Hshape.
  { destruct (callback_runs tr c Hr) as [->|[[search ->]|(search & r & -> & Hcode)]];
      cbn in Hr; unfold on_mount in Hr.
    - inversion Hr. by left.
    - destruct (Js.truthy _); inversion Hr; [right; left|right; right; left];
        by eauto.
    - rewrite Hcode in Hr. cbn in Hr. inversion Hr. right. right. right.
      destruct r as [e|status [data|e]]; by eexists _, _. }
  destruct Hshape as [->|[[code ->]|[->|(code & said & -> & Hw & Hf & Hn)]]];
    cbn [log phase].
  - split_and!; [cbn; lia|done| | |done].
    + intros to Hin. by apply elem_of_nil in Hin.
    + intros a Hin. by apply elem_of_nil in Hin.
  - split_and!; [|by rewrite filter_cons_False by done| | |done].
    + rewrite filter_cons_True by done. cbn. lia.
    + intros to Hin. apply list_elem_of_singleton in Hin. done.
    + intros a Hin. by apply list_elem_of_singleton in Hin as ->.
  - split_and!; [|by rewrite filter_cons_True by done| | |].
    + rewrite filter_cons_False by done. cbn. lia.
    + intros to Hin. apply list_elem_of_singleton in Hin. by inversion Hin.
    + intros a Hin. by apply list_elem_of_singleton in Hin as ->.
    + intros _ e. by destruct e.
  - split_and!.
    + rewrite filter_cons_True by done. rewrite filter_cons_False by congruence.
      rewrite filter_cons_False by done. cbn. lia.
    + rewrite filter_cons_False by done. rewrite filter_cons_False by congruence.
      by rewrite filter_cons_True by done.
    + intros to Hin. apply elem_of_cons in Hin as [Hin|Hin]; [done|].
      apply elem_of_cons in Hin as [<-|Hin]; [done|].
      apply list_elem_of_singleton in Hin. by inversion Hin.
    + intros a Hin. apply elem_of_cons in Hin as [->|Hin]; [done|].
      apply elem_of_cons in Hin as [->|Hin]; [done|].
      by apply list_elem_of_singleton in Hin as ->.
    + intros _ e. by destruct e.
Qed.

End CallbackRuns.

Module RoutedRuns.
Import Wrap Obs Routed.

Lemma home_texts (s s' : State) :
  tracks s = [] -> tracks s' = [] ->
  error s = None -> error s' = None ->
  isReloading s = false -> isReloading s' = false ->
  isLoggedIn s' = isLoggedIn s ->
  displayName s' = displayName s ->
  Dom.texts (home s') = Dom.texts (home s) /\
  cards (home s') = [] /\
  no_tracks_shown (home s') = isLoggedIn s.
Proof.
  destruct s as [d tr l e r b], s' as [d' tr' l' e' r' b'].
  cbn [tracks error isReloading displayName isLoggedIn Hook.tracks
       Hook.error Hook.isReloading Hook.displayName hooks].
  intros -> -> -> -> -> -> -> ->. split; [|split].
  - destruct b; vm_compute; reflexivity.
  - rewrite RenderFacts.home_cards. by destruct b.
  - destruct b; reflexivity.
Qed.

(** X9. The routed revision once its probe has settled: whatever happens
    afterwards, [isLoggedIn] and [displayName] stay what the probe made
    them, the texts of the home page do not change, no card is shown, and
    [No tracks found.] is on the page exactly when the user is logged in. *)
Theorem settled_page_is_frozen tr0 tr (c c' : Config) :
  Routed.run tr0 start = Some c ->
  probe c = Settled ->
  Routed.run tr c = Some c' ->
  probe c' = Settled /\
  isLoggedIn (ui (machine c')) = isLoggedIn (ui (machine c)) /\
  displayName (ui (machine c')) = displayName (ui (machine c)) /\
  Dom.texts (home (ui (machine c'))) = Dom.texts (home (ui (machine c))) /\
  cards (home (ui (machine c'))) = [] /\
  no_tracks_shown (home (ui (machine c'))) = isLoggedIn (ui (machine c)).
Proof.
  intros Hr0 Hp Hr.
  pose proof (RoutedFacts.run_invariant invariant RoutedFacts.step_invariant
                tr0 start c RoutedFacts.start_invariant Hr0) as Hinv.
  assert (invariant c' /\ probe c' = Settled /\
          isLoggedIn (ui (machine c')) = isLoggedIn (ui (machine c)) /\
          displayName (ui (machine c')) = displayName (ui (machine c)))
    as (Hinv' & Hp' & Hl & Hd).
  { eapply (RoutedFacts.run_invariant
              (fun c1 => invariant c1 /\ probe c1 = Settled /\
                 isLoggedIn (ui (machine c1)) = isLoggedIn (ui (machine c)) /\
                 displayName (ui (machine c1)) = displayName (ui (machine c))));
      [|shelve|exact Hr].
    intros t e c1 c2 (Hi1 & Hp1 & Hl1 & Hd1) Hs.
    split; [by eapply RoutedFacts.step_invariant|].
    destruct Hi1 as (Hc & _).
    destruct e; cbn in Hs;
      try (rewrite RoutedFacts.no_cycle_no_turn in Hs by done; done);
      rewrite Hp1 in Hs; try done.
    destruct (Wrap.step _ _ _ (machine c1)) as [m'|] eqn:Hm; [|done].
    apply RoutedFacts.outside_step in Hm as [Hnow ->].
    inversion Hs; subst c2. cbn. by rewrite <- Hl1, <- Hd1. }
  split; [done|]. split; [done|]. split; [done|].
  destruct Hinv as (_ & Ht & Hre & He & _), Hinv' as (_ & Ht' & Hre' & He' & _).
  by apply home_texts.
  Unshelve. done.
Qed.

End RoutedRuns.

(** ** The theorems at work on sample runs *)

Module Runs.
Import Wrap Obs Sample.

Lemma first_failure_witness :
  exists m1,
    Wrap.run AppJs.top_tracks_prefix
      [(0, Call (Js.Int 5)); (300, Timer 0)]%nat unmounted = Some m1 /\
    (now m1 <= 420)%nat /\
    cycles m1 !! 0%nat = Some (Fetching None None) /\
    failure server_error = true /\
    caught_by 0 420 (raised "Top tracks HTTP error: " server_error)
      unmounted m1
      (Wrap.step AppJs.top_tracks_prefix 420 (TopTracks 0 server_error) m1).
Proof.
  eexists. split; [reflexivity|]. split; [cbn; lia|].
  split; [reflexivity|]. split; [reflexivity|].
  apply (proj1 (proj2 (WrapFacts.first_failure_is_caught
                         AppJs.top_tracks_prefix
                         unmounted _ (Js.Int 5) 0%nat [(300, Timer 0)]%nat 420%nat
                         eq_refl
                         ltac:(cbn; lia)))
           None server_error eq_refl eq_refl).
Defined.

(** Two runs of frontend/src/App.js.  In the first both requests of an
    invocation fail: [error] holds the error of the first failure and the
    later failure is never recorded.  In the second the dropdown is changed
    while the first invocation is still running: when the second
    invocation fails, [tracks] is no longer what it was when that
    invocation started. *)
Lemma later_failure_and_overlap :
  (exists m,
      Wrap.run AppJs.top_tracks_prefix both_fail unmounted = Some m /\
      failure unauthorized = true /\
      error (ui m) = Some (raised "Top tracks HTTP error: " server_error) /\
      error (ui m) <> Some (raised "User info HTTP error: " unauthorized)) /\
  (exists c0 c,
      AppJs.run (take 1 overlap) AppJs.start = Some c0 /\
      AppJs.run (drop 1 overlap) c0 = Some c /\
      length (cycles (AppJs.machine c0)) = 1%nat /\
      tracks (ui (AppJs.machine c0)) = [] /\
      cycles (AppJs.machine c) !! 1%nat = Some (Caught true false) /\
      error (ui (AppJs.machine c))
        = Some (raised "Top tracks HTTP error: " server_error) /\
      tracks (ui (AppJs.machine c)) = [song]).
Proof.
  split.
  - eexists. split; [reflexivity|]. split; [reflexivity|].
    split; [reflexivity|]. vm_compute. discriminate.
  - eexists _, _. split; [reflexivity|]. split; [reflexivity|].
    repeat split.
Qed.




Lemma error_witness :
  fresh unmounted /\
  exists m m' e,
    Wrap.run AppJs.top_tracks_prefix (bad_cycle 0 0 5) unmounted = Some m /\
    Wrap.run AppJs.top_tracks_prefix (good_cycle 1 1000 3) m = Some m' /\
    error (ui m) = Some e /\
    error (ui m') = Some e /\
    Dom.Elem "p" [] [Dom.Text "Error: "; Dom.Text (Js.message e)]
      ∈ View.wrap (ui m').
Proof.
  split; [split; reflexivity|].
  eexists _, _, (raised "Top tracks HTTP error: " server_error).
  split; [reflexivity|]. split; [reflexivity|]. split; [reflexivity|].
  pose proof (WrapFacts.error_is_never_cleared AppJs.top_tracks_prefix
                unmounted _ (bad_cycle 0 0 5) (conj eq_refl eq_refl) eq_refl)
    as [_ Hkept].
  match goal with
  | |- error (ui ?m') = Some ?e /\ _ =>
      destruct (Hkept (good_cycle 1 1000 3) m' e) as [_ Hquiet];
        [reflexivity|reflexivity|]
  end.
  apply Hquiet. repeat constructor.
Defined.

Lemma routed_witness :
  exists c,
    Routed.run login_then_change Routed.start = Some c /\
    limit (ui (Routed.machine c)) = Js.Int 3 /\
    cycles (Routed.machine c) = [] /\
    tracks (ui (Routed.machine c)) = [].
Proof.
  eexists. split; [reflexivity|]. split; [reflexivity|].
  pose proof (RoutedFacts.fetchWrapData_is_never_invoked
                login_then_change _ eq_refl) as (Hc & _ & Ht & _).
  exact (conj Hc Ht).
Defined.

Lemma probe_witness :
  exists c,
    Routed.run [(0%nat, Routed.Mount)] Routed.start = Some c /\
    probes c = 1%nat.
Proof.
  eexists. split; [reflexivity|].
  exact (proj1 (RoutedFacts.session_probe [(0%nat, Routed.Mount)] _ eq_refl)).
Defined.

(** The further theorems on sample runs. *)

Lemma dropdown_witness :
  exists c,
    AppJs.run overlap AppJs.start = Some c /\
    Flow.in_range (limit (ui (AppJs.machine c))) = true.
Proof.
  eexists. split; [reflexivity|].
  refine (proj1 (PageFacts.limit_stays_in_range overlap _ eq_refl _)).
  apply Forall_forall. intros x Hx.
  repeat (apply elem_of_cons in Hx as [->|Hx]; [by vm_compute|]).
  by apply elem_of_nil in Hx.
Defined.

Lemma effect_witness :
  exists c,
    AppJs.run overlap AppJs.start = Some c /\
    length (cycles (AppJs.machine c)) = 2%nat.
Proof.
  eexists. split; [reflexivity|].
  exact (proj1 (PageFacts.effect_follows_limit overlap _ eq_refl)).
Defined.

Lemma arrival_witness :
  exists c,
    AppJs.run Cases.first_load AppJs.start = Some c /\
    (tracks (ui (AppJs.machine c)) = [] \/
     tracks (ui (AppJs.machine c)) ∈ Flow.received Flow.tracks_of Cases.first_load).
Proof.
  eexists. split; [reflexivity|].
  exact (proj1 (PageFacts.nothing_shown_but_what_arrived Cases.first_load _ eq_refl)).
Defined.

Lemma explained_witness :
  exists c,
    AppJs.run overlap AppJs.start = Some c /\
    (is_Some (error (ui (AppJs.machine c))) <->
     exists k a b, cycles (AppJs.machine c) !! k = Some (Caught a b)).
Proof.
  eexists. split; [reflexivity|].
  exact (proj1 (proj2 (PageFacts.hooks_are_explained overlap _ eq_refl))).
Defined.

Lemma crossing_witness :
  exists m,
    Wrap.run AppJs.top_tracks_prefix Cases.crossing unmounted = Some m /\
    exists m',
      Wrap.run AppJs.top_tracks_prefix
        [(430, Timer 1); (450, Timer 0)]%nat m = Some m' /\
      tracks (ui m') = [song; mkTrack "Tune" ["C"] "https://img.example/2"].
Proof.
  eexists. split; [reflexivity|].
  match goal with
  | |- exists m', Wrap.run _ _ ?m = _ /\ _ =>
      destruct (LoopFacts.later_commit_wins AppJs.top_tracks_prefix m
                  1 0 430 450 [song]
                  [song; mkTrack "Tune" ["C"] "https://img.example/2"] 430 450)
        as (m' & Hr & Ht & _);
        [done|reflexivity|reflexivity|cbn; lia..|]
  end.
  exists m'. split; [exact Hr|exact Ht].
Defined.

Lemma callback_witness :
  exists c,
    CallbackHandler.run Cases.callback CallbackHandler.start = Some c /\
    length (filter (fun a => Flow.is_navigate a = true) (CallbackHandler.log c)) =
      (if decide (CallbackHandler.phase c = CallbackHandler.Finished)
       then 1 else 0)%nat.
Proof.
  eexists. split; [reflexivity|].
  exact (proj1 (proj2 (CallbackRuns.callback_navigates_once Cases.callback _
                         eq_refl))).
Defined.

Lemma settled_witness :
  exists c c',
    Routed.run (take 2 login_then_change) Routed.start = Some c /\
    Routed.probe c = Routed.Settled /\
    Routed.run (drop 2 login_then_change) c = Some c' /\
    Routed.isLoggedIn (ui (Routed.machine c')) =
      Routed.isLoggedIn (ui (Routed.machine c)).
Proof.
  eexists _, _. split; [reflexivity|]. split; [reflexivity|].
  split; [reflexivity|].
  exact (proj1 (proj2 (RoutedRuns.settled_page_is_frozen
                         (take 2 login_then_change)
                         (drop 2 login_then_change) _ _
                         eq_refl eq_refl eq_refl))).
Defined.


End Runs.
